(** * Tetris rules engine: a shallow embedding of [tetris.py]

    The development follows the Python module top to bottom: the
    configuration constants and the shape table, the helper functions
    ([shape_cells], [make_grid], [valid_space], [clear_lines]), the
    [Piece] class and the locking step of the [Tetris] class.

    Python integers are [Z]; the [locked] dictionary is a finite map keyed
    by (column, row); Python exceptions are the [Raise] branch of a small
    error monad; rendering, input polling and the floating-point timing
    fields ([fall_time], [fall_speed]) take no part in the rules and are
    left out of the state. *)

From Stdlib Require Import ZArith List String Ascii Lia Bool.
From stdpp Require Import base gmap list fin_maps.

Open Scope Z_scope.

(** ** Python exceptions as an error monad *)

Inductive exn : Type := IndexError | ZeroDivisionError | ValueError.

Inductive result (A : Type) : Type :=
| Ok (a : A)
| Raise (e : exn).

Arguments Ok {A} a.
Arguments Raise {A} e.

Definition bind {A B : Type} (m : result A) (k : A -> result B) : result B :=
  match m with
  | Ok a => k a
  | Raise e => Raise e
  end.

Notation "'let*' x ':=' m 'in' k" := (bind m (fun x => k))
  (at level 10, x pattern, m at level 100, k at level 200).

(** [l[i]] on a Python list: negative indices count from the end, anything
    outside [-len, len) raises [IndexError]. *)
Definition py_index {A : Type} (l : list A) (i : Z) : result A :=
  let n := Z.of_nat (length l) in
  let j := if i <? 0 then i + n else i in
  if (0 <=? j) && (j <? n) then
    match l !! Z.to_nat j with
    | Some a => Ok a
    | None => Raise IndexError
    end
  else Raise IndexError.

(** [a % n] on Python integers: the sign of the divisor, and
    [ZeroDivisionError] for [n = 0]. *)
Definition py_mod (a n : Z) : result Z :=
  if n =? 0 then Raise ZeroDivisionError else Ok (a mod n).

(** [range(n)] and [enumerate(l)]. *)
Definition range (n : Z) : list Z := seqZ 0 n.

Definition enumerate {A : Type} (l : list A) : list (Z * A) :=
  zip (seqZ 0 (Z.of_nat (length l))) l.

(** ** Configuration *)

Definition COLUMNS : Z := 10.
Definition ROWS : Z := 20.

Definition Color : Type := (Z * Z * Z)%type.

Definition COLORS : list Color :=
  [ (0, 240, 240); (0, 0, 240); (240, 160, 0); (240, 240, 0);
    (0, 240, 0); (160, 0, 240); (240, 0, 0) ].

(** A rotation state is a list of strings of '0' and '1'. *)
Definition Shape : Type := list string.

(** The keys 'I', 'J', 'L', 'O', 'S', 'T', 'Z' of the shape table. *)
Inductive PieceKey : Type := I_ | J_ | L_ | O_ | S_ | T_ | Z_.

#[export] Instance PieceKey_eq_dec : EqDecision PieceKey.
Proof. solve_decision. Defined.

Definition TETROMINOES (k : PieceKey) : list Shape :=
  match k with
  | I_ => [ ["0000"; "1111"; "0000"; "0000"];
           ["0010"; "0010"; "0010"; "0010"] ]
  | J_ => [ ["100"; "111"; "000"];
           ["011"; "010"; "010"];
           ["000"; "111"; "001"];
           ["010"; "010"; "110"] ]
  | L_ => [ ["001"; "111"; "000"];
           ["010"; "010"; "011"];
           ["000"; "111"; "100"];
           ["110"; "010"; "010"] ]
  | O_ => [ ["11"; "11"] ]
  | S_ => [ ["011"; "110"; "000"];
           ["010"; "011"; "001"] ]
  | T_ => [ ["010"; "111"; "000"];
           ["010"; "011"; "010"];
           ["000"; "111"; "010"];
           ["010"; "110"; "010"] ]
  | Z_ => [ ["110"; "011"; "000"];
            ["001"; "011"; "010"] ]
  end%string.

Definition PIECE_KEYS : list PieceKey := [I_; J_; L_; O_; S_; T_; Z_].

(** [l.index(v)]: position of the first occurrence, [ValueError] if none. *)
Fixpoint list_index {A : Type} `{EqDecision A} (l : list A) (v : A) : result Z :=
  match l with
  | [] => Raise ValueError
  | a :: l' => if decide (a = v) then Ok 0
               else let* i := list_index l' v in Ok (i + 1)
  end.

(** ** Helper functions *)

(** The generator [shape_cells], as the list of the pairs it yields, in the
    order it yields them. *)
Definition shape_cells (shape : Shape) (offset_x offset_y : Z) : list (Z * Z) :=
  flat_map (fun '(y, row) =>
    flat_map (fun '(x, ch) =>
      if Ascii.eqb ch "1" then [(offset_x + x, offset_y + y)] else [])
      (enumerate (list_ascii_of_string row)))
    (enumerate shape).

(** The [locked] dictionary: (column, row) -> colour. *)
Abbreviation Locked := (gmap (Z * Z) Color).

(** [key in locked]. *)
Definition mem (k : Z * Z) (locked : Locked) : bool :=
  match locked !! k with
  | Some _ => true
  | None => false
  end.

(** The loop of [valid_space] over the yielded cells, with its two early
    returns. *)
Fixpoint valid_cells (cells : list (Z * Z)) (locked : Locked) : bool :=
  match cells with
  | [] => true
  | (x, y) :: rest =>
      if (x <? 0) || (x >=? COLUMNS) || (y >=? ROWS) then false
      else if (y >=? 0) && mem (x, y) locked then false
      else valid_cells rest locked
  end.

Definition valid_space (shape : Shape) (offset_x offset_y : Z) (locked : Locked) : bool :=
  valid_cells (shape_cells shape offset_x offset_y) locked.

(** The grid: [ROWS] lists of [COLUMNS] entries, [None] or a colour. *)
Abbreviation Grid := (list (list (option Color))).

(** [l[i] = v] on a Python list, as the updated list. *)
Definition py_setitem {A : Type} (l : list A) (i : Z) (v : A) : result (list A) :=
  let n := Z.of_nat (length l) in
  let j := if i <? 0 then i + n else i in
  if (0 <=? j) && (j <? n) then Ok (<[Z.to_nat j := v]> l)
  else Raise IndexError.

Definition empty_grid : Grid :=
  map (fun _ => map (fun _ => None) (range COLUMNS)) (range ROWS).

(** One iteration of the loop of [make_grid]: [grid[y][x] = color] under its
    bounds guard. *)
Definition make_grid_step (k : Z * Z) (color : Color) (acc : result Grid) : result Grid :=
  let* grid := acc in
  let '(x, y) := k in
  if (0 <=? y) && (y <? ROWS) && (0 <=? x) && (x <? COLUMNS) then
    let* row := py_index grid y in
    let* row' := py_setitem row x (Some color) in
    py_setitem grid y row'
  else Ok grid.

(** [make_grid]: the items of the dictionary are visited in the order of
    the finite map; each in-bounds item writes its own entry. *)
Definition make_grid (locked_positions : Locked) : result Grid :=
  map_fold make_grid_step (Ok empty_grid) locked_positions.

(** [all(grid[y][x] is not None for x in range(COLUMNS))], stopping at the
    first [None]. *)
Fixpoint all_not_none (grid : Grid) (y : Z) (xs : list Z) : result bool :=
  match xs with
  | [] => Ok true
  | x :: xs' =>
      let* row := py_index grid y in
      let* c := py_index row x in
      match c with
      | Some _ => all_not_none grid y xs'
      | None => Ok false
      end
  end.

(** The first loop of [clear_lines], appending the full rows to
    [lines_to_clear]. *)
Fixpoint full_lines (grid : Grid) (ys : list Z) (lines_to_clear : list Z)
  : result (list Z) :=
  match ys with
  | [] => Ok lines_to_clear
  | y :: ys' =>
      let* full := all_not_none grid y (range COLUMNS) in
      full_lines grid ys' (if full then lines_to_clear ++ [y] else lines_to_clear)
  end.

(** [for x in range(COLUMNS): if (x, row) in locked: del locked[(x, row)]]. *)
Definition delete_row (locked : Locked) (row : Z) : Locked :=
  foldl (fun m x => if mem (x, row) m then delete (x, row) m else m)
        locked (range COLUMNS).

(** [sum(1 for cleared in lines_to_clear if y < cleared)]. *)
Definition shift_of (lines_to_clear : list Z) (y : Z) : Z :=
  Z.of_nat (length (filter (fun cleared => y < cleared) lines_to_clear)).

(** [if (x, y) in locked: locked[(x, y + shift)] = locked.pop((x, y))]:
    the pop is evaluated first, then the assignment. *)
Definition move_cell (shift y : Z) (locked : Locked) (x : Z) : Locked :=
  match locked !! (x, y) with
  | Some c => <[(x, y + shift) := c]> (delete (x, y) locked)
  | None => locked
  end.

(** The body of the shifting loop for one row [y]. *)
Definition shift_row (lines_to_clear : list Z) (locked : Locked) (y : Z) : Locked :=
  let shift := shift_of lines_to_clear y in
  if 0 <? shift then foldl (move_cell shift y) locked (range COLUMNS)
  else locked.

(** [sorted(l, reverse=True)] on integers, by insertion. *)
Fixpoint insert_desc (a : Z) (l : list Z) : list Z :=
  match l with
  | [] => [a]
  | b :: l' => if b <? a then a :: b :: l' else b :: insert_desc a l'
  end.

Definition sorted_reverse (l : list Z) : list Z := foldr insert_desc [] l.

(** [clear_lines] mutates [locked] and returns the count; here it returns
    the count together with the new dictionary. *)
Definition clear_lines (grid : Grid) (locked : Locked) : result (Z * Locked) :=
  let* lines_to_clear := full_lines grid (range ROWS) [] in
  match lines_to_clear with
  | [] => Ok (0, locked)
  | l0 :: ls =>
      let locked1 := foldl delete_row locked (rev lines_to_clear) in
      let top := foldl Z.max l0 ls in
      let ys := sorted_reverse (filter (fun r => r < top) (range ROWS)) in
      let locked2 := foldl (shift_row lines_to_clear) locked1 ys in
      Ok (Z.of_nat (length lines_to_clear), locked2)
  end.

(** A loop that builds a list, stopping at the first exception. *)
Fixpoint mapM {A B : Type} (f : A -> result B) (l : list A) : result (list B) :=
  match l with
  | [] => Ok []
  | a :: l' =>
      let* b := f a in
      let* bs := mapM f l' in
      Ok (b :: bs)
  end.

(** [range(h - 1, -1, -1)]. *)
Definition range_desc (h : Z) : list Z := reverse (range h).

(** The module-level [rotate]: the shape turned 90 degrees clockwise. *)
Definition rotate (shape : Shape) : result Shape :=
  let grid := map list_ascii_of_string shape in
  let h := Z.of_nat (length grid) in
  let* row0 := py_index grid 0 in
  let w := Z.of_nat (length row0) in
  mapM (fun x =>
          let* new_row :=
            mapM (fun y => let* row := py_index grid y in py_index row x)
                 (range_desc h) in
          Ok (string_of_list_ascii new_row))
       (range w).

(** Window layout and the on-screen pad. *)
Definition CELL_SIZE : Z := 30.
Definition PLAY_WIDTH : Z := CELL_SIZE * COLUMNS.
Definition PLAY_HEIGHT : Z := CELL_SIZE * ROWS.
Definition SIDE_PANEL : Z := 200.
Definition PAD_RADIUS : Z := 28.
Definition PAD_GAP : Z := 12.

(** ** The [Piece] class *)

Module Piece.

Record t : Type := mk {
  type : PieceKey;
  rotations : list Shape;
  rotation : Z;
  shape : Shape;
  x : Z;
  y : Z;
  color : Color
}.

Definition set_rotation (self : t) (r : Z) : t :=
  mk (type self) (rotations self) r (shape self) (x self) (y self) (color self).

Definition set_shape (self : t) (s : Shape) : t :=
  mk (type self) (rotations self) (rotation self) s (x self) (y self) (color self).

Definition set_x (self : t) (x' : Z) : t :=
  mk (type self) (rotations self) (rotation self) (shape self) x' (y self) (color self).

(** [Piece.__init__]. *)
Definition init (type_key : PieceKey) : result t :=
  let rotations := TETROMINOES type_key in
  let rotation := 0 in
  let* shape := py_index rotations rotation in
  let* row0 := py_index shape 0 in
  let x := COLUMNS / 2 - Z.of_nat (String.length row0) / 2 in
  let y := - Z.of_nat (length shape) in
  let* idx := list_index PIECE_KEYS type_key in
  let* color := py_index COLORS idx in
  Ok (mk type_key rotations rotation shape x y color).

(** The wall-kick offsets, in the order the loop tries them. *)
Definition KICKS : list Z := [-1; 1; -2; 2].

(** [for dx in (-1, 1, -2, 2): if valid_space(...): self.x += dx; return True];
    [None] when the loop runs to its end. *)
Fixpoint try_kicks (self : t) (locked : Locked) (kicks : list Z) : option t :=
  match kicks with
  | [] => None
  | dx :: rest =>
      if valid_space (shape self) (x self + dx) (y self) locked
      then Some (set_x self (x self + dx))
      else try_kicks self locked rest
  end.

(** The part shared by [rotate] and [rotate_ccw]: everything after the new
    rotation index has been computed. *)
Definition turn_to (self : t) (old r : Z) (locked : Locked) : result (bool * t) :=
  let self := set_rotation self r in
  let* s := py_index (rotations self) (rotation self) in
  let self := set_shape self s in
  if negb (valid_space (shape self) (x self) (y self) locked) then
    match try_kicks self locked KICKS with
    | Some self' => Ok (true, self')
    | None =>
        let self := set_rotation self old in
        let* s := py_index (rotations self) (rotation self) in
        Ok (false, set_shape self s)
    end
  else Ok (true, self).

(** [Piece.rotate]: the returned boolean with the piece after the call. *)
Definition rotate (self : t) (locked : Locked) : result (bool * t) :=
  let old := rotation self in
  let* r := py_mod (rotation self + 1) (Z.of_nat (length (rotations self))) in
  turn_to self old r locked.

(** [Piece.rotate_ccw]. *)
Definition rotate_ccw (self : t) (locked : Locked) : result (bool * t) :=
  let old := rotation self in
  let* r := py_mod (rotation self - 1) (Z.of_nat (length (rotations self))) in
  turn_to self old r locked.

Definition set_y (self : t) (y' : Z) : t :=
  mk (type self) (rotations self) (rotation self) (shape self) (x self) y' (color self).

End Piece.

(** ** The [Tetris] class: the state of the rules engine *)

Module Tetris.

Record t : Type := mk {
  locked : Locked;
  grid : Grid;
  current : Piece.t;
  next_piece : Piece.t;
  score : Z;
  lines : Z;
  level : Z;
  game_over : bool
}.

(** [get_new_piece]: the outcome of [random.choice(PIECE_KEYS)] is an
    argument. *)
Definition get_new_piece (choice : PieceKey) : result Piece.t :=
  Piece.init choice.

(** One iteration of the first loop of [lock_piece], on the pair
    (locked, game_over). *)
Definition lock_cell (color : Color) (st : Locked * bool) (cell : Z * Z)
  : Locked * bool :=
  let '(x, y) := cell in
  if y <? 0 then (fst st, true)
  else (<[(x, y) := color]> (fst st), snd st).

(** [score_table.get(cleared, 0)]. *)
Definition score_table_get (cleared : Z) : Z :=
  match cleared with
  | 1 => 40
  | 2 => 100
  | 3 => 300
  | 4 => 1200
  | _ => 0
  end.

(** The first loop of [lock_piece]: the dictionary and the flag after
    every cell of the current piece has been visited. *)
Definition lock_cells (self : t) : Locked * bool :=
  let cur := current self in
  foldl (lock_cell (Piece.color cur)) (locked self, game_over self)
        (shape_cells (Piece.shape cur) (Piece.x cur) (Piece.y cur)).

(** [lock_piece]. *)
Definition lock_piece (self : t) (choice : PieceKey) : result t :=
  let '(locked1, game_over1) := lock_cells self in
  let* grid1 := make_grid locked1 in
  let* res := clear_lines grid1 locked1 in
  let cleared := fst res in
  let locked2 := snd res in
  let score1 :=
    if cleared =? 0 then score self
    else score self + score_table_get cleared * level self in
  let lines1 := if cleared =? 0 then lines self else lines self + cleared in
  let level1 := if cleared =? 0 then level self else lines1 / 10 + 1 in
  let* fresh := get_new_piece choice in
  Ok (mk locked2 grid1 (next_piece self) fresh score1 lines1 level1 game_over1).

Definition set_current (self : t) (p : Piece.t) : t :=
  mk (locked self) (grid self) p (next_piece self)
     (score self) (lines self) (level self) (game_over self).

(** [reset], on the fields of the model; the two pieces drawn are
    arguments. *)
Definition reset (choice1 choice2 : PieceKey) : result t :=
  let locked := ∅ in
  let* grid := make_grid locked in
  let* current := get_new_piece choice1 in
  let* next_piece := get_new_piece choice2 in
  Ok (mk locked grid current next_piece 0 0 1 false).

(** [_point_in_circle]. *)
Definition _point_in_circle (px py cx cy r : Z) : bool :=
  (px - cx) ^ 2 + (py - cy) ^ 2 <=? r * r.

(** The [positions] dictionary of [_pad_action_at], in insertion order. *)
Definition pad_positions : list (string * (Z * Z)) :=
  let cx := PLAY_WIDTH + SIDE_PANEL / 2 in
  let base_y := PLAY_HEIGHT - 120 in
  [ ("rotate", (cx, base_y - PAD_RADIUS - PAD_GAP));
    ("left", (cx - PAD_RADIUS - PAD_GAP - PAD_RADIUS, base_y));
    ("down", (cx, base_y));
    ("right", (cx + PAD_RADIUS + PAD_GAP + PAD_RADIUS, base_y)) ]%string.

(** The loop of [_pad_action_at]: the first button under the point. *)
Fixpoint first_button (mx my : Z) (positions : list (string * (Z * Z)))
  : option string :=
  match positions with
  | [] => None
  | (name, (x, y)) :: rest =>
      if _point_in_circle mx my x y PAD_RADIUS then Some name
      else first_button mx my rest
  end.

Definition _pad_action_at (mx my : Z) : option string :=
  first_button mx my pad_positions.

(** [_perform_pad_action]. *)
Definition _perform_pad_action (self : t) (act : string) : result t :=
  let cur := current self in
  if String.eqb act "left" then
    if valid_space (Piece.shape cur) (Piece.x cur - 1) (Piece.y cur) (locked self)
    then Ok (set_current self (Piece.set_x cur (Piece.x cur - 1)))
    else Ok self
  else if String.eqb act "right" then
    if valid_space (Piece.shape cur) (Piece.x cur + 1) (Piece.y cur) (locked self)
    then Ok (set_current self (Piece.set_x cur (Piece.x cur + 1)))
    else Ok self
  else if String.eqb act "down" then
    if valid_space (Piece.shape cur) (Piece.x cur) (Piece.y cur + 1) (locked self)
    then Ok (set_current self (Piece.set_y cur (Piece.y cur + 1)))
    else Ok self
  else if String.eqb act "rotate" then
    let* r := Piece.rotate cur (locked self) in
    Ok (set_current self (snd r))
  else Ok self.

(** The [while] loop of [hard_drop]; [None] when the fuel runs out before
    the loop ends. *)
Fixpoint drop_loop (fuel : nat) (cur : Piece.t) (locked : Locked)
  : option Piece.t :=
  match fuel with
  | O => None
  | S fuel' =>
      if valid_space (Piece.shape cur) (Piece.x cur) (Piece.y cur + 1) locked
      then drop_loop fuel' (Piece.set_y cur (Piece.y cur + 1)) locked
      else Some cur
  end.

(** [hard_drop]: the loop, then [lock_piece]. *)
Definition hard_drop (fuel : nat) (self : t) (choice : PieceKey)
  : option (result t) :=
  match drop_loop fuel (current self) (locked self) with
  | None => None
  | Some cur => Some (lock_piece (set_current self cur) choice)
  end.

End Tetris.

(** * Vocabulary of the specification *)

(** Entry (column [i], row [j]) of the matrix is occupied. *)
Definition occupied (shape : Shape) (i j : nat) : Prop :=
  exists row, shape !! j = Some row /\ String.get i row = Some "1"%char.

(** A coordinate of the visible board. *)
Definition in_board (x y : Z) : Prop := 0 <= x < COLUMNS /\ 0 <= y < ROWS.

(** Every key of the dictionary lies on the board. *)
Definition keys_in_bounds (locked : Locked) : Prop :=
  forall x y c, locked !! (x, y) = Some c -> in_board x y.

(** A row is full when every column of it holds a locked cell. *)
Definition row_full (locked : Locked) (y : Z) : Prop :=
  forall x, 0 <= x < COLUMNS -> exists c, locked !! (x, y) = Some c.

Definition row_fullb (locked : Locked) (y : Z) : bool :=
  forallb (fun x => mem (x, y) locked) (range COLUMNS).

(** The full rows of the board, and how many of them lie strictly below
    row [r] (have an index greater than [r]). *)
Definition full_rows (locked : Locked) : list Z :=
  filter (fun y => row_fullb locked y = true) (range ROWS).

Definition full_below (locked : Locked) (r : Z) : Z :=
  Z.of_nat (length (filter (fun y => r < y) (full_rows locked))).

(** The grid holds, at every coordinate of the board, what the dictionary
    holds there. *)
Definition grid_of (grid : Grid) (locked : Locked) : Prop :=
  forall x y, in_board x y ->
    exists row, grid !! Z.to_nat y = Some row /\
                row !! Z.to_nat x = Some (locked !! (x, y)).

(** What the first loop of [clear_lines] decides for row [y] of a grid. *)
Definition detected (grid : Grid) (y : Z) : bool :=
  match all_not_none grid y (range COLUMNS) with
  | Ok true => true
  | _ => false
  end.

(** What column [x] looks like at row [y] once the cell at ([x], [y0]), if
    any, has been moved down by [shift]. *)
Definition moved (shift y0 : Z) (locked : Locked) (x y : Z) : option Color :=
  if decide (y = y0) then None
  else if decide (y = y0 + shift) then
    match locked !! (x, y0) with
    | Some c => Some c
    | None => locked !! (x, y0 + shift)
    end
  else locked !! (x, y).

(** Loop invariant of the shifting loop of [clear_lines], once the rows
    [top - 1] down to [k] have been processed: [lines] are the rows to
    clear, [top] the largest of them, [m0] the dictionary on entry and [m1]
    the dictionary after the deletions. *)
Definition shifted_upto (lines : list Z) (top : Z) (m0 m1 : Locked)
                        (k : Z) (m : Locked) : Prop :=
  (forall x y, ~ (0 <= x < COLUMNS /\ k <= y <= top) ->
     m !! (x, y) = m1 !! (x, y)) /\
  (forall x r c, 0 <= x < COLUMNS -> k <= r < top -> (r ∉ lines) ->
     m0 !! (x, r) = Some c -> m !! (x, r + shift_of lines r) = Some c) /\
  (forall x y c, 0 <= x < COLUMNS -> k <= y <= top -> m !! (x, y) = Some c ->
     exists r, k <= r < top /\ (r ∉ lines) /\ y = r + shift_of lines r /\
               m0 !! (x, r) = Some c).

(** [m2] is [m0] with the rows [lines] cleared: the kept cells of the board
    have moved down past the cleared rows below them, nothing else is on
    the board, and keys outside the board are as they were. *)
Definition rows_cleared (lines : list Z) (m0 m2 : Locked) : Prop :=
  (forall x r c, in_board x r -> (r ∉ lines) -> m0 !! (x, r) = Some c ->
     m2 !! (x, r + shift_of lines r) = Some c) /\
  (forall x y c, in_board x y -> m2 !! (x, y) = Some c ->
     exists r, in_board x r /\ (r ∉ lines) /\ y = r + shift_of lines r /\
               m0 !! (x, r) = Some c) /\
  (forall x y, ~ in_board x y -> m2 !! (x, y) = m0 !! (x, y)).

(** The class invariant of [Piece]: [self.shape] is
    [self.rotations[self.rotation]]. *)
Definition shape_in_sync (p : Piece.t) : Prop :=
  py_index (Piece.rotations p) (Piece.rotation p) = Ok (Piece.shape p).

(** Number of rotation states of a piece. *)
Definition state_count (p : Piece.t) : Z := Z.of_nat (length (Piece.rotations p)).

(** [n] clockwise rotations in a row, each of which succeeds and leaves the
    anchor column where it was (a wall kick moves it by one or two). *)
Inductive plain_rotations (locked : Locked) : nat -> Piece.t -> Piece.t -> Prop :=
| plain_rotations_O (p : Piece.t) : plain_rotations locked 0 p p
| plain_rotations_S (n : nat) (p p' p'' : Piece.t) :
    Piece.rotate p locked = Ok (true, p') ->
    Piece.x p' = Piece.x p ->
    plain_rotations locked n p' p'' ->
    plain_rotations locked (S n) p p''.

(** Width and height of a rotation state. *)
Definition shape_width (s : Shape) : Z :=
  match s with
  | [] => 0
  | row :: _ => Z.of_nat (String.length row)
  end.

Definition shape_height (s : Shape) : Z := Z.of_nat (length s).

(** Executable form of [keys_in_bounds]. *)
Definition keys_in_boundsb (locked : Locked) : bool :=
  forallb (fun kv : Z * Z * Color =>
             let '(x, y, _) := kv in
             (0 <=? x) && (x <? COLUMNS) && (0 <=? y) && (y <? ROWS))
          (map_to_list locked).

(** A shape of [h] rows of [w] characters each. *)
Definition rectangular (s : Shape) (h w : nat) : Prop :=
  length s = h /\ Forall (fun row => String.length row = w) s.

(** The character at row [r], column [c] of a shape. *)
Definition cell_at (s : Shape) (r c : nat) : option ascii :=
  match s !! r with
  | Some row => String.get c row
  | None => None
  end.

(** No row of the board is full. *)
Definition no_full_row (locked : Locked) : Prop :=
  forall y, 0 <= y < ROWS -> ~ row_full locked y.

(** A piece as the game makes and moves it: the rotation states of its
    type, a rotation index among them, the shape in step with the index,
    and a position [valid_space] accepts. *)
Definition piece_ok (p : Piece.t) (locked : Locked) : Prop :=
  Piece.rotations p = TETROMINOES (Piece.type p) /\
  0 <= Piece.rotation p < state_count p /\
  shape_in_sync p /\
  valid_space (Piece.shape p) (Piece.x p) (Piece.y p) locked = true.

(** A piece as [Piece.__init__] returns it. *)
Definition spawned (p : Piece.t) : Prop := exists k, Piece.init k = Ok p.

(** What holds of the game state between two commands. *)
Definition invariant (st : Tetris.t) : Prop :=
  keys_in_bounds (Tetris.locked st) /\
  no_full_row (Tetris.locked st) /\
  piece_ok (Tetris.current st) (Tetris.locked st) /\
  spawned (Tetris.next_piece st) /\
  0 <= Tetris.score st /\
  0 <= Tetris.lines st /\
  Tetris.level st = Tetris.lines st / 10 + 1.

(** The fields a move of the falling piece must leave alone. *)
Definition same_board (st st' : Tetris.t) : Prop :=
  Tetris.locked st' = Tetris.locked st /\
  Tetris.grid st' = Tetris.grid st /\
  Tetris.next_piece st' = Tetris.next_piece st /\
  Tetris.score st' = Tetris.score st /\
  Tetris.lines st' = Tetris.lines st /\
  Tetris.level st' = Tetris.level st /\
  Tetris.game_over st' = Tetris.game_over st.

(** * Example boards and states *)

(** Cells of colour [c] in row [y] at the columns [xs], added to [m]. *)
Definition with_row (y : Z) (xs : list Z) (c : Color) (m : Locked) : Locked :=
  foldr (fun x acc => <[(x, y) := c]> acc) m xs.

Definition blue : Color := (0, 0, 240).
Definition red : Color := (240, 0, 0).
Definition cyan : Color := (0, 240, 240).

(** Row 5 fully occupied and one more cell at (3, 4). *)
Definition board_row5 : Locked :=
  <[(3, 4) := red]> (with_row 5 (range COLUMNS) blue ∅).

(** The I piece standing upright (rotation 1) and lying flat (rotation 0). *)
Definition upright_I (x y : Z) : Piece.t :=
  Piece.mk I_ (TETROMINOES I_) 1 ["0010"; "0010"; "0010"; "0010"]%string x y cyan.

Definition flat_I (x y : Z) : Piece.t :=
  Piece.mk I_ (TETROMINOES I_) 0 ["0000"; "1111"; "0000"; "0000"]%string x y cyan.

Definition square_O (x y : Z) : Piece.t :=
  Piece.mk O_ (TETROMINOES O_) 0 ["11"; "11"]%string x y (240, 240, 0).

Definition spawned_T : Piece.t :=
  Piece.mk T_ (TETROMINOES T_) 0 ["010"; "111"; "000"]%string 4 (-3) (160, 0, 240).

(** Rows 16 to 19 full but for column 5, the upright I above that column:
    locking it completes four rows. Level 3 with 25 lines so far. *)
Definition state_four_rows : Tetris.t :=
  Tetris.mk
    (with_row 16 [0; 1; 2; 3; 4; 6; 7; 8; 9] blue
       (with_row 17 [0; 1; 2; 3; 4; 6; 7; 8; 9] blue
          (with_row 18 [0; 1; 2; 3; 4; 6; 7; 8; 9] blue
             (with_row 19 [0; 1; 2; 3; 4; 6; 7; 8; 9] blue ∅))))
    empty_grid (upright_I 3 16) spawned_T 1000 25 3 false.

(** Row 19 full but for columns 4 and 5, the O piece above them: locking
    it completes one row. Level 1, nothing scored yet. *)
Definition state_one_row : Tetris.t :=
  Tetris.mk (with_row 19 [0; 1; 2; 3; 6; 7; 8; 9] blue ∅)
            empty_grid (square_O 4 18) spawned_T 0 0 1 false.

(** Row 2 full but for column 5, a cell at (5, 3), and the upright I resting
    on it with its top cell at row -1. *)
Definition state_topped_out : Tetris.t :=
  Tetris.mk (<[(5, 3) := red]> (with_row 2 [0; 1; 2; 3; 4; 6; 7; 8; 9] blue ∅))
            empty_grid (upright_I 3 (-1)) spawned_T 0 0 1 false.

(** Row 1 full but for column 5, where the upright I stands. *)
Definition board_row1_gap : Locked :=
  with_row 1 [0; 1; 2; 3; 4; 6; 7; 8; 9] blue ∅.

(** The T piece in the middle of an empty board. *)
Definition free_T (rotation : Z) (shape : Shape) : Piece.t :=
  Piece.mk T_ (TETROMINOES T_) rotation shape 4 5 (160, 0, 240).

(** An empty board with the T piece in the middle, at the start of a
    game. *)
Definition state_open : Tetris.t :=
  Tetris.mk ∅ empty_grid (free_T 0 ["010"; "111"; "000"]%string) spawned_T
            0 0 1 false.


(** A piece whose shape has no occupied cell; the table has none such. *)
Definition blank_piece : Piece.t :=
  Piece.mk O_ [["00"; "00"]%string] 0 ["00"; "00"]%string 4 0 (240, 240, 0).

(** One cell on the board, and the same with a second key left of it. *)
Definition board_one_cell : Locked := {[ (0, 0) := red ]}.
Definition board_stray_key : Locked := <[(-1, 5) := blue]> board_one_cell.

(** * Properties *)

(** ** Small facts about the error monad and Python indexing *)

Lemma bind_Ok {A B : Type} (m : result A) (k : A -> result B) (b : B) :
  bind m k = Ok b <-> exists a, m = Ok a /\ k a = Ok b.
Proof.
  destruct m as [a|e]; simpl; split.
  - intros H. exists a. auto.
  - intros (a' & Ha & Hk). congruence.
  - discriminate.
  - intros (a' & Ha & _). discriminate.
Qed.

Lemma py_index_nat {A : Type} (l : list A) (n : nat) (a : A) :
  l !! n = Some a -> py_index l (Z.of_nat n) = Ok a.
Proof.
  intros H. pose proof (lookup_lt_Some _ _ _ H) as Hlt.
  unfold py_index.
  destruct (Z.ltb_spec (Z.of_nat n) 0) as [Hneg|_]; [lia|].
  destruct (Z.leb_spec 0 (Z.of_nat n)) as [_|Hneg]; [|lia].
  destruct (Z.ltb_spec (Z.of_nat n) (Z.of_nat (length l))) as [_|Hge]; [|lia].
  simpl. rewrite Nat2Z.id, H. reflexivity.
Qed.

Lemma py_index_in_range {A : Type} (l : list A) (i : Z) :
  0 <= i < Z.of_nat (length l) ->
  exists a, l !! Z.to_nat i = Some a /\ py_index l i = Ok a.
Proof.
  intros Hi.
  destruct (lookup_lt_is_Some_2 l (Z.to_nat i)) as [a Ha]; [lia|].
  exists a. split; [exact Ha|].
  rewrite <- (Z2Nat.id i) by lia. now apply py_index_nat.
Qed.

(** ** The cells of a shape *)

Lemma lookup_list_ascii_of_string (s : string) (n : nat) :
  list_ascii_of_string s !! n = String.get n s.
Proof.
  revert n. induction s as [|c s IH]; intros [|n]; simpl; auto.
Qed.

Lemma in_enumerate {A : Type} (l : list A) (z : Z) (a : A) :
  In (z, a) (enumerate l) <-> exists n : nat, z = Z.of_nat n /\ l !! n = Some a.
Proof.
  unfold enumerate. rewrite <- list_elem_of_In, list_elem_of_lookup. split.
  - intros (n & Hn). exists n.
    rewrite lookup_zip_with in Hn.
    destruct (seqZ 0 (Z.of_nat (length l)) !! n) as [z'|] eqn:Hz; simpl in Hn;
      [|discriminate].
    destruct (l !! n) as [a'|] eqn:Ha; simpl in Hn; [|discriminate].
    apply lookup_seqZ in Hz. inversion Hn; subst. split; [lia|reflexivity].
  - intros (n & -> & Ha). exists n.
    rewrite lookup_zip_with.
    assert (Hz : seqZ 0 (Z.of_nat (length l)) !! n = Some (Z.of_nat n)).
    { apply lookup_seqZ. pose proof (lookup_lt_Some _ _ _ Ha). lia. }
    rewrite Hz, Ha. reflexivity.
Qed.

Lemma in_shape_cells (shape : Shape) (offset_x offset_y cx cy : Z) :
  In (cx, cy) (shape_cells shape offset_x offset_y) <->
  exists i j : nat, occupied shape i j /\
                    cx = offset_x + Z.of_nat i /\ cy = offset_y + Z.of_nat j.
Proof.
  unfold shape_cells. rewrite in_flat_map. split.
  - intros ([y row] & Hrow & Hin). apply in_enumerate in Hrow.
    destruct Hrow as (j & -> & Hj).
    apply in_flat_map in Hin. destruct Hin as ([x ch] & Hch & Hin).
    apply in_enumerate in Hch. destruct Hch as (i & -> & Hi).
    destruct (Ascii.eqb_spec ch "1") as [->|Hne]; simpl in Hin; [|tauto].
    destruct Hin as [Heq|[]]. inversion Heq; subst.
    exists i, j. split; [|split; reflexivity].
    exists row. split; [exact Hj|].
    now rewrite <- lookup_list_ascii_of_string.
  - intros (i & j & (row & Hj & Hi) & -> & ->).
    exists (Z.of_nat j, row). split.
    + apply in_enumerate. eauto.
    + apply in_flat_map. exists (Z.of_nat i, "1"%char). split.
      * apply in_enumerate. exists i. split; [reflexivity|].
        now rewrite lookup_list_ascii_of_string.
      * simpl. left. reflexivity.
Qed.

(** ** [valid_space] *)

Lemma mem_true (k : Z * Z) (locked : Locked) :
  mem k locked = true <-> exists c, locked !! k = Some c.
Proof.
  unfold mem. destruct (locked !! k) as [c|]; split; eauto; try discriminate.
  intros (c & Hc). discriminate.
Qed.

Lemma mem_false (k : Z * Z) (locked : Locked) :
  mem k locked = false <-> locked !! k = None.
Proof. unfold mem. destruct (locked !! k); split; congruence. Qed.

Lemma valid_cells_spec (cells : list (Z * Z)) (locked : Locked) :
  valid_cells cells locked = true <->
  forall cx cy, In (cx, cy) cells ->
    0 <= cx < COLUMNS /\ cy < ROWS /\ (0 <= cy -> locked !! (cx, cy) = None).
Proof.
  induction cells as [|[x y] rest IH]; simpl.
  - split; [intros _ cx cy []|reflexivity].
  - destruct (Z.ltb_spec x 0) as [Hx0|Hx0]; simpl.
    { split; [discriminate|]. intros H.
      destruct (H x y) as [? _]; [now left|lia]. }
    destruct (Z.geb_spec x COLUMNS) as [HxC|HxC]; simpl.
    { split; [discriminate|]. intros H.
      destruct (H x y) as [? _]; [now left|lia]. }
    destruct (Z.geb_spec y ROWS) as [HyR|HyR]; simpl.
    { split; [discriminate|]. intros H.
      destruct (H x y) as (_ & ? & _); [now left|lia]. }
    destruct (Z.geb_spec y 0) as [Hy0|Hy0]; simpl.
    + destruct (mem (x, y) locked) eqn:Hm.
      * split; [discriminate|]. intros H.
        destruct (H x y) as (_ & _ & Hn); [now left|].
        apply mem_true in Hm. destruct Hm as (c & Hc).
        rewrite Hn in Hc by lia. discriminate.
      * apply mem_false in Hm. rewrite IH. split.
        -- intros H cx cy [Heq|Hin]; [|now apply H].
           inversion Heq; subst. repeat split; auto; lia.
        -- intros H cx cy Hin. apply H. now right.
    + rewrite IH. split.
      * intros H cx cy [Heq|Hin]; [|now apply H].
        inversion Heq; subst. repeat split; try lia.
      * intros H cx cy Hin. apply H. now right.
Qed.

(** C3: [valid_space] answers true exactly when every occupied cell of the
    shape, offset by the anchor, has its column in [0, COLUMNS), its row
    below [ROWS], and, when its row is not negative, no entry in the locked
    cells; a cell at a negative row is never looked up there. *)
Theorem valid_space_iff (shape : Shape) (offset_x offset_y : Z) (locked : Locked) :
  valid_space shape offset_x offset_y locked = true <->
  forall i j : nat, occupied shape i j ->
    let cx := offset_x + Z.of_nat i in
    let cy := offset_y + Z.of_nat j in
    0 <= cx < COLUMNS /\ cy < ROWS /\ (0 <= cy -> locked !! (cx, cy) = None).
Proof.
  unfold valid_space. rewrite valid_cells_spec. split.
  - intros H i j Hocc. apply H. apply in_shape_cells. eauto.
  - intros H cx cy Hin. apply in_shape_cells in Hin.
    destruct Hin as (i & j & Hocc & -> & ->). now apply H.
Qed.

(** ** [make_grid] *)

Lemma py_setitem_in_range {A : Type} (l : list A) (i : Z) (v : A) :
  0 <= i < Z.of_nat (length l) ->
  py_setitem l i v = Ok (<[Z.to_nat i := v]> l).
Proof.
  intros Hi. unfold py_setitem.
  destruct (Z.ltb_spec i 0) as [Hneg|_]; [lia|].
  destruct (Z.leb_spec 0 i) as [_|Hneg]; [|lia].
  destruct (Z.ltb_spec i (Z.of_nat (length l))) as [_|Hge]; [|lia].
  reflexivity.
Qed.

Lemma empty_grid_of : grid_of empty_grid ∅.
Proof.
  intros x y [Hx Hy]. unfold empty_grid, range.
  exists (map (fun _ : Z => None) (seqZ 0 COLUMNS)). split.
  - change (map ?f ?l) with (f <$> l) at 1. rewrite list_lookup_fmap.
    assert (H : seqZ 0 ROWS !! Z.to_nat y = Some y)
      by (apply lookup_seqZ; lia).
    rewrite H. reflexivity.
  - change (map ?f ?l) with (f <$> l). rewrite list_lookup_fmap.
    assert (H : seqZ 0 COLUMNS !! Z.to_nat x = Some x)
      by (apply lookup_seqZ; lia).
    rewrite H, lookup_empty. reflexivity.
Qed.

Lemma make_grid_step_of (k : Z * Z) (color : Color) (grid : Grid) (locked : Locked) :
  grid_of grid locked ->
  exists grid', make_grid_step k color (Ok grid) = Ok grid' /\
                grid_of grid' (<[k := color]> locked).
Proof.
  intros Hg. destruct k as [x0 y0]. unfold make_grid_step. simpl.
  destruct ((0 <=? y0) && (y0 <? ROWS) && (0 <=? x0) && (x0 <? COLUMNS)) eqn:Hguard.
  - apply andb_prop in Hguard. destruct Hguard as [Hguard Hx2].
    apply andb_prop in Hguard. destruct Hguard as [Hguard Hx1].
    apply andb_prop in Hguard. destruct Hguard as [Hy1 Hy2].
    apply Z.leb_le in Hy1, Hx1. apply Z.ltb_lt in Hy2, Hx2.
    destruct (Hg x0 y0) as (row & Hrow & Hcell); [unfold in_board; lia|].
    pose proof (lookup_lt_Some _ _ _ Hrow) as Hlen.
    pose proof (lookup_lt_Some _ _ _ Hcell) as Hlen'.
    destruct (py_index_in_range grid y0) as (row0 & Hrow0 & ->); [lia|].
    assert (row0 = row) as -> by congruence. simpl.
    rewrite py_setitem_in_range by lia. simpl.
    rewrite py_setitem_in_range by lia.
    eexists. split; [reflexivity|].
    intros x y [Hx Hy]. destruct (decide (y = y0)) as [->|Hney].
    + exists (<[Z.to_nat x0 := Some color]> row). split.
      * apply list_lookup_insert_eq. lia.
      * destruct (decide (x = x0)) as [->|Hnex].
        -- rewrite lookup_insert_eq. apply list_lookup_insert_eq. lia.
        -- rewrite lookup_insert_ne by congruence.
           rewrite list_lookup_insert_ne by lia.
           destruct (Hg x y0) as (row' & Hrow' & Hcell'); [unfold in_board; lia|].
           congruence.
    + destruct (Hg x y) as (row' & Hrow' & Hcell'); [unfold in_board; lia|].
      exists row'. split.
      * rewrite list_lookup_insert_ne by lia. exact Hrow'.
      * rewrite lookup_insert_ne by congruence. exact Hcell'.
  - exists grid. split; [reflexivity|].
    intros x y [Hx Hy].
    destruct (Hg x y) as (row & Hrow & Hcell); [unfold in_board; lia|].
    exists row. split; [exact Hrow|].
    rewrite lookup_insert_ne; [exact Hcell|].
    intros Heq. inversion Heq; subst.
    destruct (Z.leb_spec 0 y); [|lia].
    destruct (Z.ltb_spec y ROWS); [|lia].
    destruct (Z.leb_spec 0 x); [|lia].
    destruct (Z.ltb_spec x COLUMNS); [|lia].
    discriminate.
Qed.

(** [make_grid] never raises, and the grid it returns mirrors the
    dictionary on the board. *)
Lemma make_grid_of (locked : Locked) :
  exists grid, make_grid locked = Ok grid /\ grid_of grid locked.
Proof.
  unfold make_grid.
  apply (map_fold_weak_ind
           (fun (r : result Grid) (m : Locked) =>
              exists grid, r = Ok grid /\ grid_of grid m)).
  - exists empty_grid. split; [reflexivity|apply empty_grid_of].
  - intros k color m r _ (grid & -> & Hg). now apply make_grid_step_of.
Qed.

(** ** Detection of the full rows *)

Arguments range : simpl never.

Lemma full_lines_cons (grid : Grid) (y : Z) (ys acc : list Z) :
  full_lines grid (y :: ys) acc =
  let* full := all_not_none grid y (range COLUMNS) in
  full_lines grid ys (if full then acc ++ [y] else acc).
Proof. reflexivity. Qed.

Lemma row_fullb_spec (locked : Locked) (y : Z) :
  row_fullb locked y = true <-> row_full locked y.
Proof.
  unfold row_fullb, row_full, range. rewrite forallb_forall. split.
  - intros H x Hx. apply mem_true. apply H.
    apply list_elem_of_In, elem_of_seqZ. lia.
  - intros H x Hx. apply list_elem_of_In, elem_of_seqZ in Hx.
    apply mem_true. apply H. lia.
Qed.

Lemma all_not_none_of (grid : Grid) (locked : Locked) (y : Z) (xs : list Z) :
  grid_of grid locked -> 0 <= y < ROWS ->
  Forall (fun x => 0 <= x < COLUMNS) xs ->
  all_not_none grid y xs = Ok (forallb (fun x => mem (x, y) locked) xs).
Proof.
  intros Hg Hy Hxs. induction Hxs as [|x xs Hx _ IH]; [reflexivity|].
  simpl. destruct (Hg x y) as (row & Hrow & Hcell); [split; lia|].
  destruct (py_index_in_range grid y) as (row0 & Hrow0 & ->).
  { pose proof (lookup_lt_Some _ _ _ Hrow). lia. }
  assert (row0 = row) as -> by congruence. simpl.
  destruct (py_index_in_range row x) as (c & Hc & ->).
  { pose proof (lookup_lt_Some _ _ _ Hcell). lia. }
  simpl. rewrite Hcell in Hc. inversion Hc; subst c.
  unfold mem at 1. destruct (locked !! (x, y)); [exact IH|reflexivity].
Qed.

Lemma Forall_range (n : Z) : Forall (fun x => 0 <= x < n) (range n).
Proof. apply Forall_forall. intros x Hx. apply elem_of_seqZ in Hx. lia. Qed.

Lemma full_lines_detected (grid : Grid) (ys acc lines : list Z) :
  full_lines grid ys acc = Ok lines ->
  lines = acc ++ filter (fun y => detected grid y = true) ys.
Proof.
  revert acc. induction ys as [|y ys IH]; intros acc H.
  - inversion H. now rewrite app_nil_r.
  - rewrite full_lines_cons in H. apply bind_Ok in H. destruct H as (full & Hfull & H).
    apply IH in H. subst lines. rewrite filter_cons.
    assert (Hd : detected grid y = full)
      by (unfold detected; rewrite Hfull; now destruct full).
    rewrite Hd. destruct full.
    + rewrite decide_True by reflexivity. now rewrite <- app_assoc.
    + rewrite decide_False by discriminate. reflexivity.
Qed.

Lemma full_lines_of (grid : Grid) (locked : Locked) (ys acc : list Z) :
  grid_of grid locked -> Forall (fun y => 0 <= y < ROWS) ys ->
  full_lines grid ys acc =
    Ok (acc ++ filter (fun y => row_fullb locked y = true) ys).
Proof.
  intros Hg Hys. revert acc.
  induction Hys as [|y ys Hy _ IH]; intros acc.
  - simpl. now rewrite app_nil_r.
  - rewrite full_lines_cons.
    rewrite (all_not_none_of grid locked y _ Hg Hy (Forall_range COLUMNS)).
    unfold bind. rewrite IH, filter_cons. fold (row_fullb locked y).
    destruct (row_fullb locked y).
    + rewrite decide_True by reflexivity. now rewrite <- app_assoc.
    + rewrite decide_False by discriminate. reflexivity.
Qed.

(** ** Lists of rows: counting, maximum, descending order *)

Lemma filter_all {A : Type} (P : A -> Prop) `{forall a, Decision (P a)} (l : list A) :
  Forall P l -> filter P l = l.
Proof.
  induction 1 as [|a l Ha _ IH]; [reflexivity|].
  rewrite filter_cons_True by assumption. now rewrite IH.
Qed.

Lemma filter_none {A : Type} (P : A -> Prop) `{forall a, Decision (P a)} (l : list A) :
  Forall (fun a => ~ P a) l -> filter P l = [].
Proof.
  induction 1 as [|a l Ha _ IH]; [reflexivity|].
  now rewrite filter_cons_False by assumption.
Qed.

Lemma count_above_split (l : list Z) (k r : Z) :
  k <= r ->
  length (filter (fun c => k < c) l) =
  (length (filter (fun c => (k < c <= r)%Z) l) +
   length (filter (fun c => (r < c)%Z) l))%nat.
Proof.
  intros Hkr. induction l as [|a l IH]; [reflexivity|].
  rewrite !filter_cons.
  repeat case_decide; simpl; lia.
Qed.

Lemma NoDup_interval_length (l : list Z) (a b : Z) :
  NoDup l -> Forall (fun c => a <= c < b) l -> Z.of_nat (length l) <= Z.max 0 (b - a).
Proof.
  intros Hnd Hl.
  assert (Hsub : l ⊆+ seqZ a (b - a)).
  { apply NoDup_submseteq; [exact Hnd|].
    intros c Hc. rewrite Forall_forall in Hl. apply Hl in Hc.
    apply elem_of_seqZ. lia. }
  apply submseteq_length in Hsub. rewrite length_seqZ in Hsub. lia.
Qed.

Lemma foldl_max_ge (l : list Z) (a : Z) : a <= foldl Z.max a l.
Proof.
  revert a. induction l as [|b l IH]; intros a; simpl; [lia|].
  specialize (IH (Z.max a b)). lia.
Qed.

Lemma foldl_max_upper (l : list Z) (a c : Z) : c ∈ l -> c <= foldl Z.max a l.
Proof.
  revert a. induction l as [|b l IH]; intros a Hc; simpl.
  - inversion Hc.
  - apply elem_of_cons in Hc. destruct Hc as [->|Hc].
    + pose proof (foldl_max_ge l (Z.max a b)). lia.
    + now apply IH.
Qed.

Lemma foldl_max_elem (l : list Z) (a : Z) : foldl Z.max a l ∈ a :: l.
Proof.
  revert a. induction l as [|b l IH]; intros a; simpl.
  - apply elem_of_cons. now left.
  - specialize (IH (Z.max a b)). apply elem_of_cons in IH.
    destruct IH as [IH|IH].
    + rewrite IH. destruct (Z.max_spec a b) as [[_ ->]|[_ ->]].
      * apply elem_of_cons. right. apply elem_of_cons. now left.
      * apply elem_of_cons. now left.
    + apply elem_of_cons. right. apply elem_of_cons. now right.
Qed.

Lemma insert_desc_smallest (a : Z) (l : list Z) :
  Forall (fun b => a < b) l -> insert_desc a l = l ++ [a].
Proof.
  induction 1 as [|b l Hb _ IH]; simpl; [reflexivity|].
  destruct (Z.ltb_spec b a); [lia|]. now rewrite IH.
Qed.

Lemma sorted_reverse_seqZ (n : nat) (a : Z) :
  sorted_reverse (seqZ a (Z.of_nat n)) = rev (seqZ a (Z.of_nat n)).
Proof.
  revert a. induction n as [|n IH]; intros a; [reflexivity|].
  rewrite seqZ_cons by lia.
  replace (Z.pred (Z.of_nat (S n))) with (Z.of_nat n) by lia.
  unfold sorted_reverse in *. simpl. rewrite IH.
  apply insert_desc_smallest.
  apply Forall_forall. intros b Hb.
  rewrite list_elem_of_In in Hb. rewrite <- in_rev in Hb.
  rewrite <- list_elem_of_In in Hb. apply elem_of_seqZ in Hb. lia.
Qed.

Lemma filter_below_range (top n : Z) :
  0 <= top <= n ->
  filter (fun r => r < top) (range n) = seqZ 0 top.
Proof.
  intros Htop. unfold range.
  replace n with (top + (n - top)) by lia.
  rewrite seqZ_app by lia. rewrite filter_app.
  rewrite filter_all, filter_none.
  - apply app_nil_r.
  - apply Forall_forall. intros r Hr. apply elem_of_seqZ in Hr. lia.
  - apply Forall_forall. intros r Hr. apply elem_of_seqZ in Hr. lia.
Qed.

(** ** The two dictionary loops of [clear_lines] *)

Lemma delete_cells_lookup (row : Z) (xs : list Z) (m : Locked) (x y : Z) :
  foldl (fun m x => if mem (x, row) m then delete (x, row) m else m) m xs !! (x, y)
  = if decide (y = row /\ x ∈ xs) then None else m !! (x, y).
Proof.
  revert m. induction xs as [|a xs IH]; intros m; cbn [foldl].
  - rewrite decide_False; [reflexivity|]. intros [_ H]. inversion H.
  - rewrite IH.
    assert (Hstep : (if mem (a, row) m then delete (a, row) m else m) !! (x, y)
                    = if decide ((a, row) = (x, y)) then None else m !! (x, y)).
    { destruct (mem (a, row) m) eqn:Hm.
      - destruct (decide ((a, row) = (x, y))) as [<-|Hne].
        + apply lookup_delete_eq.
        + now apply lookup_delete_ne.
      - apply mem_false in Hm.
        destruct (decide ((a, row) = (x, y))) as [<-|Hne]; [exact Hm|reflexivity]. }
    rewrite Hstep.
    destruct (decide (y = row /\ x ∈ xs)) as [[-> Hin]|Hn].
    + rewrite decide_True; [reflexivity|]. split; [reflexivity|]. now right.
    + destruct (decide ((a, row) = (x, y))) as [Heq|Hne].
      * inversion Heq; subst. rewrite decide_True; [reflexivity|].
        split; [reflexivity|]. now left.
      * rewrite decide_False; [reflexivity|].
        intros [-> Hin]. apply elem_of_cons in Hin.
        destruct Hin as [->|Hin]; [now apply Hne|]. apply Hn. now split.
Qed.

Lemma delete_row_lookup (m : Locked) (row x y : Z) :
  delete_row m row !! (x, y)
  = if decide (y = row /\ 0 <= x < COLUMNS) then None else m !! (x, y).
Proof.
  unfold delete_row. rewrite delete_cells_lookup.
  destruct (decide (y = row /\ x ∈ range COLUMNS)) as [[-> Hin]|Hn].
  - apply elem_of_seqZ in Hin. rewrite decide_True; [reflexivity|]. lia.
  - rewrite decide_False; [reflexivity|].
    intros [-> Hx]. apply Hn. split; [reflexivity|]. apply elem_of_seqZ. lia.
Qed.

Lemma delete_rows_lookup (rows : list Z) (m : Locked) (x y : Z) :
  foldl delete_row m rows !! (x, y)
  = if decide (y ∈ rows /\ 0 <= x < COLUMNS) then None else m !! (x, y).
Proof.
  revert m. induction rows as [|row rows IH]; intros m; cbn [foldl].
  - rewrite decide_False; [reflexivity|]. intros [H _]. inversion H.
  - rewrite IH, delete_row_lookup.
    destruct (decide (y ∈ rows /\ 0 <= x < COLUMNS)) as [[Hin Hx]|Hn].
    + rewrite decide_True; [reflexivity|]. split; [now right|exact Hx].
    + destruct (decide (y = row /\ 0 <= x < COLUMNS)) as [[-> Hx]|Hn'].
      * rewrite decide_True; [reflexivity|]. split; [now left|exact Hx].
      * rewrite decide_False; [reflexivity|].
        intros [Hin Hx]. apply elem_of_cons in Hin.
        destruct Hin as [->|Hin]; [apply Hn'|apply Hn]; now split.
Qed.

Lemma move_cell_lookup (shift y0 : Z) (m : Locked) (a x y : Z) :
  shift <> 0 ->
  move_cell shift y0 m a !! (x, y)
  = if decide (x = a) then moved shift y0 m x y else m !! (x, y).
Proof.
  intros Hs. unfold move_cell, moved.
  destruct (decide (x = a)) as [->|Hne].
  - destruct (m !! (a, y0)) as [c|] eqn:Hc.
    + destruct (decide (y = y0)) as [->|Hy].
      * rewrite lookup_insert_ne by (intros [=]; lia). apply lookup_delete_eq.
      * destruct (decide (y = y0 + shift)) as [->|Hy'].
        -- apply lookup_insert_eq.
        -- rewrite lookup_insert_ne by (intros [=]; lia).
           apply lookup_delete_ne. intros [=]; lia.
    + destruct (decide (y = y0)) as [->|Hy]; [exact Hc|].
      destruct (decide (y = y0 + shift)) as [->|Hy']; reflexivity.
  - destruct (m !! (a, y0)) as [c|]; [|reflexivity].
    rewrite lookup_insert_ne by (intros [=]; lia).
    apply lookup_delete_ne. intros [=]; lia.
Qed.

Lemma move_row_lookup (shift y0 : Z) (xs : list Z) (m : Locked) (x y : Z) :
  shift <> 0 -> NoDup xs ->
  foldl (move_cell shift y0) m xs !! (x, y)
  = if decide (x ∈ xs) then moved shift y0 m x y else m !! (x, y).
Proof.
  intros Hs Hnd. revert m.
  induction Hnd as [|a xs Ha Hnd IH]; intros m; cbn [foldl].
  - rewrite decide_False; [reflexivity|]. intros H. inversion H.
  - rewrite IH. destruct (decide (x ∈ xs)) as [Hin|Hnin].
    + assert (Hxa : x <> a) by (intros ->; contradiction).
      rewrite decide_True by now right.
      unfold moved. rewrite !move_cell_lookup by assumption.
      rewrite !(decide_False (P := x = a)) by assumption. reflexivity.
    + rewrite move_cell_lookup by assumption.
      destruct (decide (x = a)) as [->|Hxa].
      * rewrite decide_True by now left. reflexivity.
      * rewrite decide_False; [reflexivity|].
        intros H. apply elem_of_cons in H. tauto.
Qed.

(** ** Clearing a set of rows

    The rows to clear are the rows of [range ROWS] picked by a test [P];
    nothing below depends on why they were picked. *)

Section ClearRows.

Variable P : Z -> bool.
Variable lines : list Z.
Hypothesis lines_def : lines = filter (fun y => P y = true) (range ROWS).

Variable top : Z.
Hypothesis top_in : top ∈ lines.
Hypothesis top_max : forall c, c ∈ lines -> c <= top.

Variable m0 : Locked.

Lemma lines_elem (y : Z) : y ∈ lines <-> 0 <= y < ROWS /\ P y = true.
Proof.
  rewrite lines_def, list_elem_of_filter. unfold range.
  rewrite elem_of_seqZ. split; intros H; split; try tauto; lia.
Qed.

Lemma lines_NoDup : NoDup lines.
Proof. rewrite lines_def. apply NoDup_filter, NoDup_seqZ. Qed.

Lemma top_range : 0 <= top < ROWS.
Proof. now apply lines_elem. Qed.

Lemma shift_of_nonneg (y : Z) : 0 <= shift_of lines y.
Proof. unfold shift_of. lia. Qed.

(** Between a row and a kept row below it there is room for the cleared
    rows in between and for the kept row itself. *)
Lemma shift_of_between (k r : Z) :
  k < r -> (r ∉ lines) -> shift_of lines k <= shift_of lines r + (r - k - 1).
Proof.
  intros Hkr Hr. unfold shift_of.
  rewrite (count_above_split lines k r) by lia.
  assert (Hmid : Z.of_nat (length (filter (fun c => k < c <= r) lines))
                 <= Z.max 0 (r - (k + 1))).
  { apply NoDup_interval_length.
    - apply NoDup_filter, lines_NoDup.
    - apply Forall_forall. intros c Hc.
      apply list_elem_of_filter in Hc. destruct Hc as [Hc Hin].
      assert (c <> r) by (intros ->; contradiction). lia. }
  lia.
Qed.

Lemma shift_of_below_top (k : Z) :
  k < top -> 1 <= shift_of lines k /\ k + shift_of lines k <= top.
Proof.
  intros Hk. unfold shift_of. split.
  - assert (Hin : top ∈ filter (fun c => k < c) lines)
      by (apply list_elem_of_filter; split; [lia|exact top_in]).
    destruct (filter (fun c => k < c) lines); [inversion Hin|simpl; lia].
  - assert (H : Z.of_nat (length (filter (fun c => k < c) lines))
                <= Z.max 0 (top + 1 - (k + 1))).
    { apply NoDup_interval_length.
      - apply NoDup_filter, lines_NoDup.
      - apply Forall_forall. intros c Hc.
        apply list_elem_of_filter in Hc. destruct Hc as [Hc Hin].
        apply top_max in Hin. lia. }
    lia.
Qed.

Lemma shift_of_from_top (y : Z) : top <= y -> shift_of lines y = 0.
Proof.
  intros Hy. unfold shift_of. rewrite filter_none; [reflexivity|].
  apply Forall_forall. intros c Hc. apply top_max in Hc. lia.
Qed.

Lemma deleted_lookup (x y : Z) :
  foldl delete_row m0 (rev lines) !! (x, y)
  = if decide (y ∈ lines /\ 0 <= x < COLUMNS) then None else m0 !! (x, y).
Proof.
  rewrite delete_rows_lookup.
  destruct (decide (y ∈ rev lines /\ 0 <= x < COLUMNS)) as [[Hin Hx]|Hn].
  - rewrite decide_True; [reflexivity|]. split; [|exact Hx].
    rewrite list_elem_of_In in Hin. rewrite <- in_rev in Hin.
    now rewrite list_elem_of_In.
  - rewrite decide_False; [reflexivity|]. intros [Hin Hx]. apply Hn.
    split; [|exact Hx].
    rewrite list_elem_of_In. rewrite <- in_rev. now rewrite <- list_elem_of_In.
Qed.

Let m1 : Locked := foldl delete_row m0 (rev lines).

Lemma shifted_upto_top : shifted_upto lines top m0 m1 top m1.
Proof.
  split; [|split].
  - reflexivity.
  - intros x r c _ Hr. lia.
  - intros x y c Hx Hy Hc. assert (y = top) as -> by lia.
    unfold m1 in Hc. rewrite deleted_lookup in Hc.
    rewrite decide_True in Hc; [discriminate|]. split; [exact top_in|exact Hx].
Qed.

Lemma shifted_upto_step (k : Z) (m : Locked) :
  0 <= k < top ->
  shifted_upto lines top m0 m1 (k + 1) m ->
  shifted_upto lines top m0 m1 k (shift_row lines m k).
Proof.
  intros Hk (I1 & I2 & I3).
  destruct (shift_of_below_top k) as [Hs1 Hs2]; [lia|].
  assert (Hlook : forall x y, shift_row lines m k !! (x, y)
            = if decide (0 <= x < COLUMNS)
              then moved (shift_of lines k) k m x y else m !! (x, y)).
  { intros x y. unfold shift_row.
    destruct (Z.ltb_spec 0 (shift_of lines k)) as [_|Hle]; [|lia].
    rewrite move_row_lookup by (try apply NoDup_seqZ; lia).
    destruct (decide (x ∈ range COLUMNS)) as [Hin|Hn].
    - apply elem_of_seqZ in Hin. rewrite decide_True by lia. reflexivity.
    - rewrite decide_False; [reflexivity|].
      intros Hx. apply Hn. apply elem_of_seqZ. lia. }
  assert (Hrowk : forall x, 0 <= x < COLUMNS ->
            m !! (x, k) = if decide (k ∈ lines) then None else m0 !! (x, k)).
  { intros x Hx. rewrite I1 by lia. unfold m1. rewrite deleted_lookup.
    destruct (decide (k ∈ lines)) as [Hin|Hn].
    - rewrite decide_True by tauto. reflexivity.
    - rewrite decide_False by tauto. reflexivity. }
  split; [|split].
  - intros x y Hout. rewrite Hlook.
    destruct (decide (0 <= x < COLUMNS)) as [Hx|Hx].
    + unfold moved. rewrite !decide_False by lia. apply I1. lia.
    + apply I1. tauto.
  - intros x r c Hx Hr Hnin Hc. rewrite Hlook, decide_True by exact Hx.
    unfold moved. destruct (decide (r = k)) as [->|Hrk].
    + rewrite decide_False by lia. rewrite decide_True by reflexivity.
      rewrite (Hrowk x Hx), decide_False by exact Hnin. now rewrite Hc.
    + pose proof (shift_of_between k r ltac:(lia) Hnin) as Hb.
      pose proof (shift_of_nonneg r) as Hr0.
      rewrite !decide_False by lia. apply I2; auto. lia.
  - intros x y c Hx Hy Hc. rewrite Hlook, decide_True in Hc by exact Hx.
    unfold moved in Hc.
    destruct (decide (y = k)) as [->|Hyk]; [discriminate|].
    destruct (decide (y = k + shift_of lines k)) as [->|Hyk'].
    + rewrite (Hrowk x Hx) in Hc.
      destruct (decide (k ∈ lines)) as [Hin|Hnin].
      * destruct (I3 x (k + shift_of lines k) c Hx ltac:(lia) Hc) as (r & Hr & Hrn & Hry & Hrc).
        exists r. repeat split; auto; lia.
      * destruct (m0 !! (x, k)) as [c'|] eqn:Hk0.
        -- inversion Hc; subst c'. exists k. repeat split; auto; lia.
        -- destruct (I3 x (k + shift_of lines k) c Hx ltac:(lia) Hc) as (r & Hr & Hrn & Hry & Hrc).
           exists r. repeat split; auto; lia.
    + destruct (I3 x y c Hx ltac:(lia) Hc) as (r & Hr & Hrn & Hry & Hrc).
      exists r. repeat split; auto; lia.
Qed.

Lemma shifted_upto_loop (n : nat) :
  0 <= top - Z.of_nat n ->
  shifted_upto lines top m0 m1 (top - Z.of_nat n)
    (foldl (shift_row lines) m1 (rev (seqZ (top - Z.of_nat n) (Z.of_nat n)))).
Proof.
  induction n as [|n IH]; intros Hn.
  - replace (top - Z.of_nat 0) with top by lia. apply shifted_upto_top.
  - rewrite seqZ_cons by lia. cbn [rev]. rewrite foldl_app. cbn [foldl].
    replace (Z.succ (top - Z.of_nat (S n))) with (top - Z.of_nat n) by lia.
    replace (Z.pred (Z.of_nat (S n))) with (Z.of_nat n) by lia.
    apply shifted_upto_step; [lia|].
    replace (top - Z.of_nat (S n) + 1) with (top - Z.of_nat n) by lia.
    apply IH. lia.
Qed.

(** The dictionary left by the two loops. *)
Let m2 : Locked :=
  foldl (shift_row lines) m1
        (sorted_reverse (filter (fun r => r < top) (range ROWS))).

Lemma cleared_invariant : shifted_upto lines top m0 m1 0 m2.
Proof.
  pose proof top_range as Htop. unfold m2.
  rewrite filter_below_range by lia.
  replace (seqZ 0 top) with (seqZ 0 (Z.of_nat (Z.to_nat top)))
    by (rewrite Z2Nat.id; [reflexivity|lia]).
  rewrite sorted_reverse_seqZ.
  pose proof (shifted_upto_loop (Z.to_nat top)) as H.
  replace (top - Z.of_nat (Z.to_nat top)) with 0 in H by lia.
  apply H. lia.
Qed.

(** A kept cell of the board moves down by the number of cleared rows
    below it. *)
Lemma cleared_kept (x r : Z) (c : Color) :
  in_board x r -> (r ∉ lines) -> m0 !! (x, r) = Some c ->
  m2 !! (x, r + shift_of lines r) = Some c.
Proof.
  intros [Hx Hr] Hnin Hc. destruct cleared_invariant as (I1 & I2 & _).
  destruct (Z.lt_ge_cases r top) as [Hlt|Hge].
  - apply I2; auto. lia.
  - assert (r <> top) by (intros ->; contradiction).
    rewrite shift_of_from_top by lia. rewrite Z.add_0_r.
    rewrite I1 by lia. unfold m1. rewrite deleted_lookup.
    rewrite decide_False by tauto. exact Hc.
Qed.

(** Every cell of the board afterwards is a kept cell, moved. *)
Lemma cleared_origin (x y : Z) (c : Color) :
  in_board x y -> m2 !! (x, y) = Some c ->
  exists r, in_board x r /\ (r ∉ lines) /\ y = r + shift_of lines r /\
            m0 !! (x, r) = Some c.
Proof.
  intros [Hx Hy] Hc. destruct cleared_invariant as (I1 & _ & I3).
  pose proof top_range as Htop.
  destruct (Z.le_gt_cases y top) as [Hle|Hgt].
  - destruct (I3 x y c Hx ltac:(lia) Hc) as (r & Hr & Hrn & Hry & Hrc).
    exists r. unfold in_board. repeat split; auto; lia.
  - rewrite I1 in Hc by lia. unfold m1 in Hc. rewrite deleted_lookup in Hc.
    destruct (decide (y ∈ lines /\ 0 <= x < COLUMNS)) as [_|Hn]; [discriminate|].
    exists y. unfold in_board. rewrite shift_of_from_top by lia.
    repeat split; auto; try lia.
Qed.

(** Keys outside the board are not touched. *)
Lemma cleared_outside (x y : Z) :
  ~ in_board x y -> m2 !! (x, y) = m0 !! (x, y).
Proof.
  intros Hout. destruct cleared_invariant as (I1 & _ & _).
  pose proof top_range as Htop.
  rewrite I1 by (unfold in_board in Hout; lia).
  unfold m1. rewrite deleted_lookup. rewrite decide_False; [reflexivity|].
  intros [Hin Hx]. apply lines_elem in Hin. apply Hout. split; tauto.
Qed.

End ClearRows.

(** ** [clear_lines] *)

Lemma rows_cleared_nil (m : Locked) : rows_cleared [] m m.
Proof.
  split; [|split].
  - intros x r c _ _ Hc. unfold shift_of. simpl. now rewrite Z.add_0_r.
  - intros x y c Hb Hc. exists y. unfold shift_of. simpl.
    rewrite Z.add_0_r. split; [exact Hb|]. split; [|now split].
    intros H. inversion H.
  - reflexivity.
Qed.

Lemma clear_lines_spec (P : Z -> bool) (grid : Grid) (locked : Locked) :
  let lines := filter (fun y => P y = true) (range ROWS) in
  full_lines grid (range ROWS) [] = Ok lines ->
  exists locked',
    clear_lines grid locked = Ok (Z.of_nat (length lines), locked') /\
    rows_cleared lines locked locked'.
Proof.
  intros lines Hlines. unfold clear_lines. rewrite Hlines. unfold bind.
  destruct lines as [|l0 ls] eqn:Hl.
  - exists locked. split; [reflexivity|apply rows_cleared_nil].
  - eexists. split; [reflexivity|].
    assert (Hdef : l0 :: ls = filter (fun y => P y = true) (range ROWS))
      by (symmetry; exact Hl).
    assert (Hin : foldl Z.max l0 ls ∈ l0 :: ls) by apply foldl_max_elem.
    assert (Hmax : forall c, c ∈ l0 :: ls -> c <= foldl Z.max l0 ls).
    { intros c Hc. apply elem_of_cons in Hc. destruct Hc as [->|Hc].
      - apply foldl_max_ge.
      - now apply foldl_max_upper. }
    split; [|split].
    + intros x r c. now apply (cleared_kept P _ Hdef _ Hin Hmax).
    + intros x y c. now apply (cleared_origin P _ Hdef _ Hin Hmax).
    + intros x y. now apply (cleared_outside P _ Hdef _ Hin Hmax).
Qed.

(** Whatever grid it is given, when [clear_lines] returns it has cleared
    the rows its first loop detected. *)
Lemma clear_lines_any_grid (grid : Grid) (locked locked' : Locked) (n : Z) :
  clear_lines grid locked = Ok (n, locked') ->
  let lines := filter (fun y => detected grid y = true) (range ROWS) in
  n = Z.of_nat (length lines) /\ rows_cleared lines locked locked'.
Proof.
  intros Hrun lines.
  assert (Hfull : full_lines grid (range ROWS) [] = Ok lines).
  { unfold clear_lines in Hrun. apply bind_Ok in Hrun.
    destruct Hrun as (l & Hl & _). rewrite Hl.
    apply full_lines_detected in Hl. now subst l. }
  destruct (clear_lines_spec (detected grid) grid locked Hfull)
    as (locked'' & Hrun' & Hspec).
  fold lines in Hrun'. rewrite Hrun in Hrun'. inversion Hrun'; subst.
  split; [reflexivity|exact Hspec].
Qed.

(** On the grid derived from the dictionary, [clear_lines] returns, and
    clears the full rows. *)
Lemma clear_lines_grid_of (grid : Grid) (locked : Locked) :
  grid_of grid locked ->
  exists locked',
    clear_lines grid locked = Ok (Z.of_nat (length (full_rows locked)), locked') /\
    rows_cleared (full_rows locked) locked locked'.
Proof.
  intros Hg. apply (clear_lines_spec (row_fullb locked)).
  rewrite (full_lines_of grid locked _ [] Hg (Forall_range ROWS)).
  reflexivity.
Qed.

Lemma full_rows_elem (locked : Locked) (y : Z) :
  y ∈ full_rows locked <-> 0 <= y < ROWS /\ row_full locked y.
Proof.
  unfold full_rows, range. rewrite list_elem_of_filter, elem_of_seqZ.
  rewrite row_fullb_spec. split; intros H; split; try tauto; lia.
Qed.

(** Clearing keeps every key on the board. *)
Lemma rows_cleared_in_bounds (lines : list Z) (m0 m2 : Locked) :
  rows_cleared lines m0 m2 -> keys_in_bounds m0 -> keys_in_bounds m2.
Proof.
  intros (_ & _ & Hout) Hb x y c Hc.
  destruct (decide (0 <= x < COLUMNS /\ 0 <= y < ROWS)) as [Hin|Hnin];
    [exact Hin|].
  rewrite (Hout x y Hnin) in Hc. now apply Hb in Hc.
Qed.

(** ** Rotation *)

Lemma try_kicks_none (self : Piece.t) (locked : Locked) (kicks : list Z) :
  (forall dx, In dx kicks ->
     valid_space (Piece.shape self) (Piece.x self + dx) (Piece.y self) locked = false) ->
  Piece.try_kicks self locked kicks = None.
Proof.
  induction kicks as [|dx rest IH]; intros H; simpl; [reflexivity|].
  rewrite H by now left. apply IH. intros d Hd. apply H. now right.
Qed.

Lemma try_kicks_first (self : Piece.t) (locked : Locked) (pre post : list Z) (dx : Z) :
  (forall d, In d pre ->
     valid_space (Piece.shape self) (Piece.x self + d) (Piece.y self) locked = false) ->
  valid_space (Piece.shape self) (Piece.x self + dx) (Piece.y self) locked = true ->
  Piece.try_kicks self locked (pre ++ dx :: post)
  = Some (Piece.set_x self (Piece.x self + dx)).
Proof.
  intros Hpre Hdx. induction pre as [|d pre IH]; simpl.
  - now rewrite Hdx.
  - rewrite Hpre by now left. apply IH. intros d' Hd'. apply Hpre. now right.
Qed.

Lemma py_index_Ok_length {A : Type} (l : list A) (i : Z) (a : A) :
  py_index l i = Ok a -> 0 < Z.of_nat (length l).
Proof.
  unfold py_index.
  destruct ((0 <=? (if i <? 0 then i + Z.of_nat (length l) else i)) &&
            ((if i <? 0 then i + Z.of_nat (length l) else i) <? Z.of_nat (length l)))
    eqn:Hg; [|discriminate].
  intros _. apply andb_prop in Hg. destruct Hg as [H1 H2].
  apply Z.leb_le in H1. apply Z.ltb_lt in H2. lia.
Qed.

Lemma py_mod_Ok (a n : Z) : n <> 0 -> py_mod a n = Ok (a mod n).
Proof.
  intros Hn. unfold py_mod. destruct (Z.eqb_spec n 0); [contradiction|reflexivity].
Qed.

(** What [turn_to] does when the new state and all four kicks are refused. *)
Lemma turn_to_blocked (p : Piece.t) (r : Z) (s : Shape) (locked : Locked) :
  shape_in_sync p ->
  py_index (Piece.rotations p) r = Ok s ->
  valid_space s (Piece.x p) (Piece.y p) locked = false ->
  (forall dx, In dx [-1; 1; -2; 2] ->
     valid_space s (Piece.x p + dx) (Piece.y p) locked = false) ->
  Piece.turn_to p (Piece.rotation p) r locked = Ok (false, p).
Proof.
  intros Hsync Hs Hbad Hkicks. unfold Piece.turn_to.
  cbn -[Piece.try_kicks valid_space]. rewrite Hs.
  cbn -[Piece.try_kicks valid_space]. rewrite Hbad.
  cbn -[Piece.try_kicks valid_space].
  rewrite try_kicks_none by exact Hkicks.
  unfold shape_in_sync in Hsync. rewrite Hsync. cbn.
  destruct p; reflexivity.
Qed.

(** C4: when the rotated state is refused at the anchor and at each of the
    four wall-kick offsets, [rotate] (and likewise [rotate_ccw]) returns
    False and the piece is exactly as before the call: same rotation index,
    same shape, same anchor column and row. *)
Theorem rotation_blocked_reverts
    (p : Piece.t) (locked : Locked) (ccw : bool) (s : Shape) :
  let delta := if ccw then -1 else 1 in
  let run := if ccw then Piece.rotate_ccw else Piece.rotate in
  shape_in_sync p ->
  py_index (Piece.rotations p) ((Piece.rotation p + delta) mod state_count p) = Ok s ->
  valid_space s (Piece.x p) (Piece.y p) locked = false ->
  (forall dx, In dx [-1; 1; -2; 2] ->
     valid_space s (Piece.x p + dx) (Piece.y p) locked = false) ->
  run p locked = Ok (false, p).
Proof.
  intros delta run Hsync Hs Hbad Hkicks.
  pose proof (py_index_Ok_length _ _ _ Hs) as Hlen.
  destruct ccw; subst delta run; unfold Piece.rotate_ccw, Piece.rotate.
  - replace (Piece.rotation p - 1) with (Piece.rotation p + -1) by lia.
    rewrite py_mod_Ok by lia. cbn [bind].
    now apply (turn_to_blocked p _ s).
  - rewrite py_mod_Ok by lia. cbn [bind].
    now apply (turn_to_blocked p _ s).
Qed.

(** C5: when the rotated state is refused at the anchor, [rotate] tries the
    offsets -1, +1, -2, +2 in that order; at the first one [dx] that
    [valid_space] accepts it moves the anchor column by [dx], keeps the new
    rotation index and shape, and returns True. *)
Theorem rotate_wall_kick
    (p : Piece.t) (locked : Locked) (s : Shape) (pre post : list Z) (dx : Z) :
  let r := (Piece.rotation p + 1) mod state_count p in
  py_index (Piece.rotations p) r = Ok s ->
  valid_space s (Piece.x p) (Piece.y p) locked = false ->
  [-1; 1; -2; 2] = pre ++ dx :: post ->
  (forall d, In d pre ->
     valid_space s (Piece.x p + d) (Piece.y p) locked = false) ->
  valid_space s (Piece.x p + dx) (Piece.y p) locked = true ->
  Piece.rotate p locked
  = Ok (true, Piece.mk (Piece.type p) (Piece.rotations p) r s
                       (Piece.x p + dx) (Piece.y p) (Piece.color p)).
Proof.
  intros r Hs Hbad Hsplit Hpre Hdx.
  pose proof (py_index_Ok_length _ _ _ Hs) as Hlen.
  unfold Piece.rotate. rewrite py_mod_Ok by (unfold state_count in *; lia).
  cbn [bind]. unfold Piece.turn_to.
  cbn -[Piece.try_kicks valid_space Z.modulo]. fold (state_count p). fold r.
  rewrite Hs. cbn -[Piece.try_kicks valid_space Z.modulo]. rewrite Hbad.
  cbn -[Piece.try_kicks valid_space Z.modulo].
  unfold Piece.KICKS. rewrite Hsplit.
  rewrite try_kicks_first; [reflexivity| |]; cbn; assumption.
Qed.

Lemma try_kicks_some (self self' : Piece.t) (locked : Locked) (kicks : list Z) :
  Piece.try_kicks self locked kicks = Some self' ->
  exists dx, In dx kicks /\ self' = Piece.set_x self (Piece.x self + dx) /\
             valid_space (Piece.shape self) (Piece.x self + dx) (Piece.y self) locked = true.
Proof.
  induction kicks as [|d rest IH]; simpl; [discriminate|].
  destruct (valid_space (Piece.shape self) (Piece.x self + d) (Piece.y self) locked)
    eqn:Hd.
  - intros [= <-]. exists d. auto.
  - intros H. destruct (IH H) as (dx & Hin & Heq & Hv). exists dx. auto.
Qed.

(** A successful clockwise rotation: the new index, and which of the two
    ways it succeeded. *)
Lemma rotate_true (p p' : Piece.t) (locked : Locked) :
  Piece.rotate p locked = Ok (true, p') ->
  state_count p <> 0 /\
  exists s,
    py_index (Piece.rotations p) ((Piece.rotation p + 1) mod state_count p) = Ok s /\
    Piece.type p' = Piece.type p /\
    Piece.rotations p' = Piece.rotations p /\
    Piece.rotation p' = (Piece.rotation p + 1) mod state_count p /\
    Piece.shape p' = s /\
    Piece.y p' = Piece.y p /\
    Piece.color p' = Piece.color p /\
    ((valid_space s (Piece.x p) (Piece.y p) locked = true /\ Piece.x p' = Piece.x p) \/
     (valid_space s (Piece.x p) (Piece.y p) locked = false /\
      exists dx, In dx [-1; 1; -2; 2] /\ Piece.x p' = Piece.x p + dx)).
Proof.
  unfold Piece.rotate, py_mod. fold (state_count p).
  destruct (Z.eqb_spec (state_count p) 0) as [Hz|Hnz]; [discriminate|].
  cbn [bind]. unfold Piece.turn_to.
  cbn -[Piece.try_kicks valid_space Z.modulo].
  destruct (py_index (Piece.rotations p) ((Piece.rotation p + 1) mod state_count p))
    as [s|e] eqn:Hs; [|discriminate].
  cbn -[Piece.try_kicks valid_space Z.modulo].
  destruct (valid_space s (Piece.x p) (Piece.y p) locked) eqn:Hv;
    cbn -[Piece.try_kicks valid_space Z.modulo].
  - intros [= <-]. split; [exact Hnz|]. exists s. cbn. tauto.
  - destruct (Piece.try_kicks _ locked Piece.KICKS) as [q|] eqn:Hk.
    + intros [= <-]. apply try_kicks_some in Hk.
      destruct Hk as (dx & Hin & -> & _).
      split; [exact Hnz|]. exists s. cbn. repeat split; auto.
      right. split; [exact Hv|]. exists dx. auto.
    + destruct (py_index (Piece.rotations p) (Piece.rotation p)); discriminate.
Qed.

(** A successful rotation leaves the anchor column in place exactly when it
    needed no wall kick. *)
Lemma rotate_true_same_column (p p' : Piece.t) (locked : Locked) :
  Piece.rotate p locked = Ok (true, p') ->
  Piece.x p' = Piece.x p ->
  valid_space (Piece.shape p') (Piece.x p) (Piece.y p) locked = true.
Proof.
  intros Hrun Hx. apply rotate_true in Hrun.
  destruct Hrun as (_ & s & _ & _ & _ & _ & Hs & _ & _ & [[Hv _]|[_ (dx & Hin & Hdx)]]).
  - now rewrite Hs.
  - exfalso. simpl in Hin. lia.
Qed.

Lemma plain_rotations_index (locked : Locked) (n : nat) (p p' : Piece.t) :
  plain_rotations locked n p p' ->
  0 <= Piece.rotation p < state_count p ->
  Piece.rotations p' = Piece.rotations p /\
  Piece.x p' = Piece.x p /\
  Piece.y p' = Piece.y p /\
  Piece.rotation p' = (Piece.rotation p + Z.of_nat n) mod state_count p.
Proof.
  induction 1 as [p|n p p' p'' Hrun Hx _ IH]; intros Hr.
  - rewrite Z.add_0_r, Z.mod_small by lia. auto.
  - apply rotate_true in Hrun.
    destruct Hrun as (Hnz & s & _ & _ & Hrots & Hrot & _ & Hy & _ & _).
    assert (Hcount : state_count p' = state_count p)
      by (unfold state_count; now rewrite Hrots).
    destruct IH as (IH1 & IH2 & IH3 & IH4).
    { rewrite Hcount, Hrot. apply Z.mod_pos_bound. lia. }
    repeat split; try congruence.
    rewrite IH4, Hcount, Hrot, Zplus_mod_idemp_l. f_equal. lia.
Qed.

(** C8: a piece whose type has N rotation states (1 for O; 2 for S, Z and
    I; 4 for J, L and T), rotated clockwise N times with every rotation
    succeeding without a wall kick, is back at its original rotation index
    and at its original anchor column and row. *)
Theorem rotate_full_cycle
    (k : PieceKey) (p p' : Piece.t) (locked : Locked) :
  Piece.rotations p = TETROMINOES k ->
  0 <= Piece.rotation p < state_count p ->
  plain_rotations locked (Z.to_nat (state_count p)) p p' ->
  state_count p = match k with
                  | O_ => 1
                  | S_ | Z_ | I_ => 2
                  | J_ | L_ | T_ => 4
                  end /\
  Piece.rotation p' = Piece.rotation p /\
  Piece.x p' = Piece.x p /\
  Piece.y p' = Piece.y p.
Proof.
  intros Hk Hr Hrun.
  split; [unfold state_count; rewrite Hk; now destruct k|].
  destruct (plain_rotations_index _ _ _ _ Hrun Hr) as (_ & Hx & Hy & Hrot).
  repeat split; auto.
  rewrite Hrot, Z2Nat.id by lia.
  rewrite <- (Z.mul_1_l (state_count p)) at 1.
  rewrite Z.mod_add by lia. apply Z.mod_small. lia.
Qed.

(** ** Spawning *)

Lemma init_total (k : PieceKey) : exists p, Piece.init k = Ok p.
Proof. destruct k; eexists; vm_compute; reflexivity. Qed.

Lemma cells_above_top (s : Shape) (offset_x cx cy : Z) :
  In (cx, cy) (shape_cells s offset_x (- shape_height s)) -> cy < 0.
Proof.
  intros H. apply in_shape_cells in H.
  destruct H as (i & j & (row & Hrow & _) & _ & ->).
  apply lookup_lt_Some in Hrow. unfold shape_height. lia.
Qed.

(** C9: a newly spawned piece of any type has rotation index 0, its shape
    is the first rotation state of its type, its anchor column is
    floor(COLUMNS/2) - floor(width/2) and its anchor row is -height, so
    every occupied cell of it has a negative row. *)
Theorem spawn_position (k : PieceKey) :
  exists p,
    Piece.init k = Ok p /\
    Piece.type p = k /\
    Piece.rotation p = 0 /\
    head (TETROMINOES k) = Some (Piece.shape p) /\
    Piece.x p = COLUMNS / 2 - shape_width (Piece.shape p) / 2 /\
    Piece.y p = - shape_height (Piece.shape p) /\
    forall cx cy,
      In (cx, cy) (shape_cells (Piece.shape p) (Piece.x p) (Piece.y p)) -> cy < 0.
Proof.
  destruct (init_total k) as (p & Hp). exists p.
  assert (Hfields : Piece.type p = k /\ Piece.rotation p = 0 /\
                    head (TETROMINOES k) = Some (Piece.shape p) /\
                    Piece.x p = COLUMNS / 2 - shape_width (Piece.shape p) / 2 /\
                    Piece.y p = - shape_height (Piece.shape p)).
  { destruct k; vm_compute in Hp; inversion Hp; subst p;
      vm_compute; repeat split; reflexivity. }
  destruct Hfields as (Ht & Hr & Hs & Hx & Hy).
  repeat split; auto.
  intros cx cy. rewrite Hy. apply cells_above_top.
Qed.

(** ** Locking *)

Lemma keys_in_boundsb_spec (locked : Locked) :
  keys_in_boundsb locked = true -> keys_in_bounds locked.
Proof.
  unfold keys_in_boundsb. rewrite forallb_forall. intros H x y c Hc.
  apply elem_of_map_to_list, list_elem_of_In in Hc. apply H in Hc.
  apply andb_prop in Hc. destruct Hc as [Hc Hy2].
  apply andb_prop in Hc. destruct Hc as [Hc Hy1].
  apply andb_prop in Hc. destruct Hc as [Hx1 Hx2].
  apply Z.leb_le in Hx1, Hy1. apply Z.ltb_lt in Hx2, Hy2.
  unfold in_board. lia.
Qed.

(** The first loop of [lock_piece]: the cells at a row >= 0 are written
    with the colour, those above the top raise the flag, and the loop goes
    on to the last cell either way. *)
Lemma lock_cell_fold (color : Color) (cells : list (Z * Z)) (m : Locked) (g : bool) :
  exists m',
    foldl (Tetris.lock_cell color) (m, g) cells
    = (m', g || existsb (fun c => snd c <? 0) cells) /\
    forall x y, m' !! (x, y)
                = if decide ((x, y) ∈ cells /\ 0 <= y) then Some color
                  else m !! (x, y).
Proof.
  revert m g. induction cells as [|[cx cy] cells IH]; intros m g; cbn [foldl].
  - exists m. split; [simpl; now rewrite orb_false_r|].
    intros x y. rewrite decide_False; [reflexivity|].
    intros [H _]. inversion H.
  - unfold Tetris.lock_cell at 2. cbn [fst snd existsb].
    destruct (Z.ltb_spec cy 0) as [Hneg|Hpos].
    + destruct (IH m true) as (m' & Hrun & Hlook). exists m'. split.
      * rewrite Hrun. now rewrite orb_true_r.
      * intros x y. rewrite Hlook.
        destruct (decide ((x, y) ∈ cells /\ 0 <= y)) as [[Hin Hy]|Hn].
        -- rewrite decide_True; [reflexivity|]. split; [now right|exact Hy].
        -- rewrite decide_False; [reflexivity|].
           intros [Hin Hy]. apply elem_of_cons in Hin.
           destruct Hin as [[= -> ->]|Hin]; [lia|]. apply Hn. now split.
    + destruct (IH (<[(cx, cy) := color]> m) g) as (m' & Hrun & Hlook).
      exists m'. split; [exact Hrun|].
      intros x y. rewrite Hlook.
      destruct (decide ((x, y) ∈ cells /\ 0 <= y)) as [[Hin Hy]|Hn].
      * rewrite decide_True; [reflexivity|]. split; [now right|exact Hy].
      * destruct (decide ((cx, cy) = (x, y))) as [[= -> ->]|Hne].
        -- rewrite lookup_insert_eq. rewrite decide_True; [reflexivity|].
           split; [now left|exact Hpos].
        -- rewrite lookup_insert_ne by exact Hne.
           rewrite decide_False; [reflexivity|].
           intros [Hin Hy]. apply elem_of_cons in Hin.
           destruct Hin as [Heq|Hin]; [now apply Hne|]. apply Hn. now split.
Qed.

(** [lock_piece] always returns: the whole run, step by step. *)
Lemma lock_piece_run (st : Tetris.t) (choice : PieceKey) :
  let cur := Tetris.current st in
  let cells := shape_cells (Piece.shape cur) (Piece.x cur) (Piece.y cur) in
  exists locked1 locked2 grid1 fresh,
    let cleared := Z.of_nat (length (full_rows locked1)) in
    Tetris.lock_cells st
    = (locked1, Tetris.game_over st || existsb (fun c => snd c <? 0) cells) /\
    (forall x y, locked1 !! (x, y)
                 = if decide ((x, y) ∈ cells /\ 0 <= y) then Some (Piece.color cur)
                   else Tetris.locked st !! (x, y)) /\
    make_grid locked1 = Ok grid1 /\
    clear_lines grid1 locked1 = Ok (cleared, locked2) /\
    rows_cleared (full_rows locked1) locked1 locked2 /\
    Piece.init choice = Ok fresh /\
    Tetris.lock_piece st choice
    = Ok (Tetris.mk locked2 grid1 (Tetris.next_piece st) fresh
            (if cleared =? 0 then Tetris.score st
             else Tetris.score st + Tetris.score_table_get cleared * Tetris.level st)
            (if cleared =? 0 then Tetris.lines st else Tetris.lines st + cleared)
            (if cleared =? 0 then Tetris.level st
             else (Tetris.lines st + cleared) / 10 + 1)
            (Tetris.game_over st || existsb (fun c => snd c <? 0) cells)).
Proof.
  intros cur cells.
  destruct (lock_cell_fold (Piece.color cur) cells (Tetris.locked st)
              (Tetris.game_over st)) as (locked1 & Hcells & Hlook).
  destruct (make_grid_of locked1) as (grid1 & Hgrid & Hof).
  destruct (clear_lines_grid_of grid1 locked1 Hof) as (locked2 & Hclear & Hrows).
  destruct (init_total choice) as (fresh & Hfresh).
  exists locked1, locked2, grid1, fresh.
  assert (Hlc : Tetris.lock_cells st
                = (locked1, Tetris.game_over st || existsb (fun c => snd c <? 0) cells))
    by exact Hcells.
  cbv zeta.
  split; [exact Hlc|]. split; [exact Hlook|]. split; [exact Hgrid|].
  split; [exact Hclear|]. split; [exact Hrows|]. split; [exact Hfresh|].
  unfold Tetris.lock_piece. rewrite Hlc, Hgrid. cbn [bind].
  rewrite Hclear. cbn [bind fst snd].
  unfold Tetris.get_new_piece. rewrite Hfresh. cbn [bind].
  destruct (Z.of_nat (length (full_rows locked1)) =? 0); reflexivity.
Qed.

Lemma score_table_other (c : Z) : c < 1 \/ 4 < c -> Tetris.score_table_get c = 0.
Proof.
  intros H. unfold Tetris.score_table_get.
  destruct c as [|p|p]; try reflexivity.
  destruct p as [[p|p|]|[p|p|]|]; try reflexivity; try lia;
    destruct p; try reflexivity; lia.
Qed.

Lemma no_full_row_check (locked : Locked) :
  forallb (fun y => negb (row_fullb locked y)) (range ROWS) = true ->
  forall y, 0 <= y < ROWS -> ~ row_full locked y.
Proof.
  rewrite forallb_forall. intros H y Hy Hfull.
  apply row_fullb_spec in Hfull.
  assert (Hin : In y (range ROWS))
    by (apply list_elem_of_In, elem_of_seqZ; lia).
  apply H in Hin. rewrite Hfull in Hin. discriminate.
Qed.

Lemma full_rows_none (locked : Locked) :
  (forall y, 0 <= y < ROWS -> ~ row_full locked y) -> full_rows locked = [].
Proof.
  intros H. unfold full_rows. apply filter_none.
  apply Forall_forall. intros y Hy. apply elem_of_seqZ in Hy.
  rewrite row_fullb_spec. apply H. lia.
Qed.

(** * Main theorems *)

(** C1, as amended: when an occupied cell of the current piece has a
    negative row, [lock_piece] sets the game-over flag and carries on to the
    end: every occupied cell at a row >= 0 is written into the locked cells
    with the colour of the piece and no other key changes, [clear_lines]
    runs on the result, score, lines and level are updated when it clears
    a line, the next piece becomes the current one and a fresh next piece is
    made. *)
Theorem lock_piece_above_top (st : Tetris.t) (choice : PieceKey) (x y : Z) :
  let cur := Tetris.current st in
  let cells := shape_cells (Piece.shape cur) (Piece.x cur) (Piece.y cur) in
  In (x, y) cells -> y < 0 ->
  exists st' locked1,
    let cleared := Z.of_nat (length (full_rows locked1)) in
    Tetris.lock_piece st choice = Ok st' /\
    Tetris.game_over st' = true /\
    (forall cx cy, In (cx, cy) cells -> 0 <= cy ->
       locked1 !! (cx, cy) = Some (Piece.color cur)) /\
    (forall cx cy, ~ (In (cx, cy) cells /\ 0 <= cy) ->
       locked1 !! (cx, cy) = Tetris.locked st !! (cx, cy)) /\
    make_grid locked1 = Ok (Tetris.grid st') /\
    clear_lines (Tetris.grid st') locked1 = Ok (cleared, Tetris.locked st') /\
    Tetris.score st'
    = Tetris.score st + Tetris.score_table_get cleared * Tetris.level st /\
    Tetris.lines st' = Tetris.lines st + cleared /\
    Tetris.level st'
    = (if cleared =? 0 then Tetris.level st else Tetris.lines st' / 10 + 1) /\
    Tetris.current st' = Tetris.next_piece st /\
    Piece.init choice = Ok (Tetris.next_piece st').
Proof.
  intros cur cells Hin Hy.
  destruct (lock_piece_run st choice)
    as (locked1 & locked2 & grid1 & fresh & _ & Hlook & Hgrid & Hclear & _ & Hfresh & Hrun).
  fold cur in Hlook, Hrun. fold cells in Hlook, Hrun.
  eexists. exists locked1. cbv zeta.
  split; [exact Hrun|]. cbn [Tetris.game_over Tetris.grid Tetris.locked Tetris.score
                             Tetris.lines Tetris.level Tetris.current Tetris.next_piece].
  split.
  { apply orb_true_iff. right. apply existsb_exists. exists (x, y).
    split; [exact Hin|]. now apply Z.ltb_lt. }
  split.
  { intros cx cy Hc Hcy. rewrite Hlook. rewrite decide_True; [reflexivity|].
    split; [now apply list_elem_of_In|exact Hcy]. }
  split.
  { intros cx cy Hn. rewrite Hlook. rewrite decide_False; [reflexivity|].
    intros [Hc Hcy]. apply Hn. split; [now apply list_elem_of_In|exact Hcy]. }
  split; [exact Hgrid|]. split; [exact Hclear|].
  destruct (Z.eqb_spec (Z.of_nat (length (full_rows locked1))) 0) as [Hz|Hnz].
  - rewrite Hz. cbn. repeat split; auto; lia.
  - repeat split; auto.
Qed.

(** On the grid derived from any dictionary, [clear_lines] returns the
    number of full rows, moves every cell of the board that is not in a
    full row down by the number of full rows below it, keeps nothing else
    on the board, and does not touch a key that lies outside the board. *)
Lemma clear_lines_on_board (locked : Locked) :
  exists grid locked',
    make_grid locked = Ok grid /\
    clear_lines grid locked
    = Ok (Z.of_nat (length (full_rows locked)), locked') /\
    (forall x r c, in_board x r -> ~ row_full locked r ->
       locked !! (x, r) = Some c ->
       locked' !! (x, r + full_below locked r) = Some c) /\
    (forall x y c, in_board x y -> locked' !! (x, y) = Some c ->
       exists r, in_board x r /\ ~ row_full locked r /\
                 y = r + full_below locked r /\ locked !! (x, r) = Some c) /\
    (forall x y, ~ in_board x y -> locked' !! (x, y) = locked !! (x, y)).
Proof.
  destruct (make_grid_of locked) as (grid & Hgrid & Hof).
  destruct (clear_lines_grid_of grid locked Hof) as (locked' & Hrun & Hk & Ho & Hout).
  exists grid, locked'. split; [exact Hgrid|]. split; [exact Hrun|].
  split; [|split; [|exact Hout]].
  - intros x r c Hb Hnf Hc. apply Hk; auto.
    rewrite full_rows_elem. tauto.
  - intros x y c Hb Hc. destruct (Ho x y c Hb Hc) as (r & Hr & Hnin & Hy & Hrc).
    exists r. repeat split; try apply Hr; auto.
    intros Hfull. apply Hnin. apply full_rows_elem. split; [apply Hr|exact Hfull].
Qed.

(** C2: for every dictionary of locked cells (its keys on the board, as
    locking leaves them) with the grid derived from it, [clear_lines]
    returns the number of full rows, removes exactly the cells of the full
    rows and moves every remaining cell from its row r down to row r plus
    the number of full rows whose index is greater than r; with row 5 full
    and one more cell at (3, 4) it returns 1, the ten cells that were in
    row 5 are gone and the cell that was at (3, 4) is at (3, 5), the only
    cell left. *)
Theorem clear_lines_shifts_rows :
  (forall locked : Locked,
     keys_in_bounds locked ->
     exists grid locked',
       make_grid locked = Ok grid /\
       clear_lines grid locked
       = Ok (Z.of_nat (length (full_rows locked)), locked') /\
       (forall x r c, locked !! (x, r) = Some c -> ~ row_full locked r ->
          locked' !! (x, r + full_below locked r) = Some c) /\
       (forall x y c, locked' !! (x, y) = Some c ->
          exists r, ~ row_full locked r /\
                    y = r + full_below locked r /\ locked !! (x, r) = Some c)) /\
  (keys_in_bounds board_row5 /\
   row_full board_row5 5 /\ board_row5 !! (3, 4) = Some red /\
   exists grid,
     make_grid board_row5 = Ok grid /\
     clear_lines grid board_row5 = Ok (1, {[ (3, 5) := red ]})).
Proof.
  split.
  - intros locked Hb.
    destruct (make_grid_of locked) as (grid & Hgrid & Hof).
    destruct (clear_lines_grid_of grid locked Hof) as (locked' & Hrun & Hk & Ho & Hout).
    exists grid, locked'. split; [exact Hgrid|]. split; [exact Hrun|]. split.
    + intros x r c Hc Hnf. apply Hk; [exact (Hb x r c Hc)| |exact Hc].
      rewrite full_rows_elem. tauto.
    + intros x y c Hc.
      destruct (decide (0 <= x < COLUMNS /\ 0 <= y < ROWS)) as [Hin|Hnin].
      * destruct (Ho x y c Hin Hc) as (r & Hr & Hnotin & Hy & Hrc).
        exists r. split; [|split; [exact Hy|exact Hrc]].
        intros Hfull. apply Hnotin. apply full_rows_elem.
        split; [apply Hr|exact Hfull].
      * exfalso. rewrite (Hout x y Hnin) in Hc. exact (Hnin (Hb x y c Hc)).
  - split; [apply keys_in_boundsb_spec; vm_compute; reflexivity|].
    split; [apply row_fullb_spec; vm_compute; reflexivity|].
    split; [vm_compute; reflexivity|].
    destruct (make_grid board_row5) as [grid|e] eqn:Hgrid;
      vm_compute in Hgrid; [injection Hgrid as <-|discriminate].
    eexists. split; [reflexivity|]. vm_compute. reflexivity.
Qed.

(** C6: a lock event that clears c lines adds T(c) times the level in force
    before the lock to the score, with T = 40, 100, 300, 1200 for 1, 2, 3,
    4 lines and 0 otherwise, adds c to the lines counter and leaves the
    level at floor(lines/10) + 1; four lines at level 3 add 3600 and one
    line at level 1 adds 40. *)
Theorem lock_piece_scoring :
  (forall (st : Tetris.t) (choice : PieceKey),
     exists st' cleared,
       Tetris.lock_piece st choice = Ok st' /\
       clear_lines (Tetris.grid st') (fst (Tetris.lock_cells st))
       = Ok (cleared, Tetris.locked st') /\
       Tetris.score st'
       = Tetris.score st + Tetris.score_table_get cleared * Tetris.level st /\
       Tetris.lines st' = Tetris.lines st + cleared /\
       (cleared <> 0 \/ Tetris.level st = Tetris.lines st / 10 + 1 ->
        Tetris.level st' = Tetris.lines st' / 10 + 1)) /\
  (Tetris.score_table_get 1 = 40 /\ Tetris.score_table_get 2 = 100 /\
   Tetris.score_table_get 3 = 300 /\ Tetris.score_table_get 4 = 1200 /\
   forall c, c < 1 \/ 4 < c -> Tetris.score_table_get c = 0) /\
  (exists st',
     Tetris.lock_piece state_four_rows I_ = Ok st' /\
     clear_lines (Tetris.grid st') (fst (Tetris.lock_cells state_four_rows))
     = Ok (4, Tetris.locked st') /\
     Tetris.level state_four_rows = 3 /\
     Tetris.score st' = Tetris.score state_four_rows + 3600) /\
  (exists st',
     Tetris.lock_piece state_one_row I_ = Ok st' /\
     clear_lines (Tetris.grid st') (fst (Tetris.lock_cells state_one_row))
     = Ok (1, Tetris.locked st') /\
     Tetris.level state_one_row = 1 /\
     Tetris.score st' = Tetris.score state_one_row + 40).
Proof.
  split; [|split; [|split]].
  - intros st choice.
    destruct (lock_piece_run st choice)
      as (locked1 & locked2 & grid1 & fresh & Hlc & _ & _ & Hclear & _ & _ & Hrun).
    eexists. exists (Z.of_nat (length (full_rows locked1))).
    split; [exact Hrun|]. rewrite Hlc.
    cbn [Tetris.grid Tetris.locked Tetris.score Tetris.lines Tetris.level fst].
    split; [exact Hclear|].
    destruct (Z.eqb_spec (Z.of_nat (length (full_rows locked1))) 0) as [Hz|Hnz].
    + rewrite Hz. cbn. split; [lia|]. split; [lia|].
      intros [H|H]; [contradiction|]. rewrite ?Z.add_0_r. exact H.
    + repeat split; auto.
  - repeat split; try reflexivity. apply score_table_other.
  - destruct (Tetris.lock_piece state_four_rows I_) as [st'|e] eqn:Hrun;
      vm_compute in Hrun; [injection Hrun as <-|discriminate].
    eexists. split; [reflexivity|]. repeat split; vm_compute; reflexivity.
  - destruct (Tetris.lock_piece state_one_row I_) as [st'|e] eqn:Hrun;
      vm_compute in Hrun; [injection Hrun as <-|discriminate].
    eexists. split; [reflexivity|]. repeat split; vm_compute; reflexivity.
Qed.

(** C7: if every key of the locked cells is on the board, it is still so
    after [clear_lines], whatever the grid, and after [lock_piece] when the
    current piece sits where [valid_space] accepts it: every key has
    0 <= column < COLUMNS and 0 <= row < ROWS, so none has a negative
    row. *)
Theorem locked_keys_stay_on_board :
  (forall (grid : Grid) (locked locked' : Locked) (n : Z),
     keys_in_bounds locked ->
     clear_lines grid locked = Ok (n, locked') ->
     keys_in_bounds locked') /\
  (forall locked : Locked,
     keys_in_bounds locked ->
     exists grid n locked',
       make_grid locked = Ok grid /\
       clear_lines grid locked = Ok (n, locked') /\
       keys_in_bounds locked') /\
  (forall (st : Tetris.t) (choice : PieceKey),
     let cur := Tetris.current st in
     keys_in_bounds (Tetris.locked st) ->
     valid_space (Piece.shape cur) (Piece.x cur) (Piece.y cur) (Tetris.locked st)
     = true ->
     exists st',
       Tetris.lock_piece st choice = Ok st' /\
       keys_in_bounds (Tetris.locked st')).
Proof.
  split; [|split].
  - intros grid locked locked' n Hb Hrun.
    apply clear_lines_any_grid in Hrun. destruct Hrun as [_ Hrows].
    now apply (rows_cleared_in_bounds _ _ _ Hrows).
  - intros locked Hb.
    destruct (make_grid_of locked) as (grid & Hgrid & Hof).
    destruct (clear_lines_grid_of grid locked Hof) as (locked' & Hrun & Hrows).
    exists grid, (Z.of_nat (length (full_rows locked))), locked'.
    split; [exact Hgrid|]. split; [exact Hrun|].
    now apply (rows_cleared_in_bounds _ _ _ Hrows).
  - intros st choice cur Hb Hvalid.
    destruct (lock_piece_run st choice)
      as (locked1 & locked2 & grid1 & fresh & _ & Hlook & _ & _ & Hrows & _ & Hrun).
    eexists. split; [exact Hrun|]. cbn [Tetris.locked].
    apply (rows_cleared_in_bounds _ _ _ Hrows).
    intros x y c Hc. rewrite Hlook in Hc.
    destruct (decide ((x, y) ∈ shape_cells (Piece.shape (Tetris.current st))
                                (Piece.x (Tetris.current st))
                                (Piece.y (Tetris.current st)) /\ 0 <= y))
      as [[Hin Hy]|_].
    + unfold valid_space in Hvalid. rewrite valid_cells_spec in Hvalid.
      apply list_elem_of_In in Hin. apply Hvalid in Hin.
      unfold in_board. lia.
    + now apply Hb in Hc.
Qed.

(** C10: when no row of the board has every column occupied, [clear_lines]
    on the grid derived from the dictionary returns 0 and the dictionary is
    left exactly as it was. *)
Theorem clear_lines_no_full_row (locked : Locked) :
  (forall y, 0 <= y < ROWS -> ~ row_full locked y) ->
  exists grid,
    make_grid locked = Ok grid /\ clear_lines grid locked = Ok (0, locked).
Proof.
  intros Hnone. destruct (make_grid_of locked) as (grid & Hgrid & Hof).
  exists grid. split; [exact Hgrid|].
  unfold clear_lines.
  rewrite (full_lines_of grid locked _ [] Hof (Forall_range ROWS)).
  cbn [app bind]. fold (full_rows locked).
  now rewrite (full_rows_none locked Hnone).
Qed.

(** * Instances and counterexamples *)

(** The upright I at column 5 of a board whose row 1 is full elsewhere:
    the flat state collides at the anchor and at all four offsets. *)
Lemma rotation_blocked_reverts_witness :
  Piece.rotate (upright_I 3 0) board_row1_gap = Ok (false, upright_I 3 0) /\
  Piece.rotate_ccw (upright_I 3 0) board_row1_gap = Ok (false, upright_I 3 0).
Proof.
  split.
  - apply (rotation_blocked_reverts (upright_I 3 0) board_row1_gap false
             ["0000"; "1111"; "0000"; "0000"]%string).
    + vm_compute. reflexivity.
    + vm_compute. reflexivity.
    + vm_compute. reflexivity.
    + intros dx [<-|[<-|[<-|[<-|[]]]]]; vm_compute; reflexivity.
  - apply (rotation_blocked_reverts (upright_I 3 0) board_row1_gap true
             ["0000"; "1111"; "0000"; "0000"]%string).
    + vm_compute. reflexivity.
    + vm_compute. reflexivity.
    + vm_compute. reflexivity.
    + intros dx [<-|[<-|[<-|[<-|[]]]]]; vm_compute; reflexivity.
Defined.

(** The upright I against the left wall of an empty board: the flat state
    is out of bounds at the anchor and at -1, +1 and -2, and fits at +2. *)
Lemma rotate_wall_kick_witness :
  Piece.rotate (upright_I (-2) 5) ∅ = Ok (true, flat_I 0 5).
Proof.
  apply (rotate_wall_kick (upright_I (-2) 5) ∅
           ["0000"; "1111"; "0000"; "0000"]%string [-1; 1; -2] [] 2).
  - vm_compute. reflexivity.
  - vm_compute. reflexivity.
  - reflexivity.
  - intros d [<-|[<-|[<-|[]]]]; vm_compute; reflexivity.
  - vm_compute. reflexivity.
Defined.

(** The T piece in the middle of an empty board, turned four times. *)
Lemma rotate_full_cycle_witness :
  exists p',
    plain_rotations ∅ 4 (free_T 0 ["010"; "111"; "000"]%string) p' /\
    Piece.rotation p' = 0 /\ Piece.x p' = 4 /\ Piece.y p' = 5.
Proof.
  assert (Hrun : plain_rotations ∅ 4 (free_T 0 ["010"; "111"; "000"]%string)
                                 (free_T 0 ["010"; "111"; "000"]%string)).
  { apply (plain_rotations_S ∅ 3 _ (free_T 1 ["010"; "011"; "010"]%string));
      [vm_compute; reflexivity|reflexivity|].
    apply (plain_rotations_S ∅ 2 _ (free_T 2 ["000"; "111"; "010"]%string));
      [vm_compute; reflexivity|reflexivity|].
    apply (plain_rotations_S ∅ 1 _ (free_T 3 ["010"; "110"; "010"]%string));
      [vm_compute; reflexivity|reflexivity|].
    apply (plain_rotations_S ∅ 0 _ (free_T 0 ["010"; "111"; "000"]%string));
      [vm_compute; reflexivity|reflexivity|].
    apply plain_rotations_O. }
  exists (free_T 0 ["010"; "111"; "000"]%string).
  split; [exact Hrun|].
  apply (rotate_full_cycle T_ (free_T 0 ["010"; "111"; "000"]%string)
           (free_T 0 ["010"; "111"; "000"]%string) ∅).
  - reflexivity.
  - vm_compute. split; [discriminate|reflexivity].
  - exact Hrun.
Defined.

(** The upright I locked with its top cell at row -1. *)
Lemma lock_piece_above_top_witness :
  exists st',
    Tetris.lock_piece state_topped_out I_ = Ok st' /\
    Tetris.game_over st' = true /\
    Tetris.current st' = Tetris.next_piece state_topped_out.
Proof.
  destruct (lock_piece_above_top state_topped_out I_ 5 (-1))
    as (st' & locked1 & Hrun & Hover & _ & _ & _ & _ & _ & _ & _ & Hcur & _).
  - vm_compute. left. reflexivity.
  - reflexivity.
  - exists st'. split; [exact Hrun|]. split; [exact Hover|exact Hcur].
Defined.

(** The O piece locked into the gap of the bottom row. *)
Lemma locked_keys_stay_on_board_witness :
  exists st',
    Tetris.lock_piece state_one_row I_ = Ok st' /\
    keys_in_bounds (Tetris.locked st').
Proof.
  apply (proj2 (proj2 locked_keys_stay_on_board) state_one_row I_).
  - apply keys_in_boundsb_spec. vm_compute. reflexivity.
  - vm_compute. reflexivity.
Defined.

(** A board with no full row: row 2 lacks column 5. *)
Lemma clear_lines_no_full_row_witness :
  exists grid,
    make_grid (Tetris.locked state_topped_out) = Ok grid /\
    clear_lines grid (Tetris.locked state_topped_out)
    = Ok (0, Tetris.locked state_topped_out).
Proof.
  apply (clear_lines_no_full_row (Tetris.locked state_topped_out)).
  apply no_full_row_check. vm_compute. reflexivity.
Defined.

(** C1 as stated fails: the first cell the loop visits is (5, -1), which
    raises the flag; the loop nevertheless writes the three cells below it,
    [clear_lines] runs and clears row 2 (the two written cells above it
    move down to rows 1 and 2), the score goes from 0 to 40 and the lines
    from 0 to 1, and the next piece replaces the current one. *)
Lemma lock_piece_goes_on_after_game_over :
  exists st',
    head (shape_cells (Piece.shape (Tetris.current state_topped_out))
                      (Piece.x (Tetris.current state_topped_out))
                      (Piece.y (Tetris.current state_topped_out)))
    = Some (5, -1) /\
    Tetris.lock_piece state_topped_out I_ = Ok st' /\
    Tetris.game_over st' = true /\
    Tetris.locked state_topped_out !! (5, 1) = None /\
    Tetris.locked st' !! (5, 1) = Some cyan /\
    Tetris.locked st' <> Tetris.locked state_topped_out /\
    Tetris.score state_topped_out = 0 /\ Tetris.score st' = 40 /\
    Tetris.lines state_topped_out = 0 /\ Tetris.lines st' = 1 /\
    Tetris.current st' = spawned_T /\
    Tetris.current st' <> Tetris.current state_topped_out.
Proof.
  destruct (Tetris.lock_piece state_topped_out I_) as [st'|e] eqn:Hrun;
    vm_compute in Hrun; [injection Hrun as <-|discriminate].
  eexists. split; [vm_compute; reflexivity|].
  split; [reflexivity|].
  cbn [Tetris.game_over Tetris.locked Tetris.score Tetris.lines Tetris.current].
  repeat split; try (vm_compute; reflexivity).
  - intros H. apply (f_equal (fun m : Locked => m !! (5, 1))) in H.
    vm_compute in H. discriminate.
  - intros H. apply (f_equal Piece.type) in H. discriminate.
Qed.

(** Row 5 full and a cell at (3, 4): the cell comes down one row. *)
Lemma clear_lines_shifts_rows_witness :
  exists grid locked',
    make_grid board_row5 = Ok grid /\
    clear_lines grid board_row5
    = Ok (Z.of_nat (length (full_rows board_row5)), locked') /\
    locked' !! (3, 4 + full_below board_row5 4) = Some red.
Proof.
  destruct (proj1 clear_lines_shifts_rows board_row5)
    as (grid & locked' & Hgrid & Hrun & Hkept & _).
  - apply keys_in_boundsb_spec. vm_compute. reflexivity.
  - exists grid, locked'. split; [exact Hgrid|]. split; [exact Hrun|].
    apply (Hkept 3 4 red).
    + vm_compute. reflexivity.
    + intros Hfull. apply row_fullb_spec in Hfull. vm_compute in Hfull.
      discriminate Hfull.
Defined.

(** * Further properties of the code *)

(** ** The module-level [rotate] *)

Lemma mapM_lookup {A B : Type} (f : A -> result B) (l : list A) (bs : list B) :
  mapM f l = Ok bs ->
  length bs = length l /\
  forall i a, l !! i = Some a -> exists b, bs !! i = Some b /\ f a = Ok b.
Proof.
  revert bs. induction l as [|a l IH]; intros bs H; simpl in H.
  - injection H as <-. split; [reflexivity|]. intros i a Hi. discriminate.
  - apply bind_Ok in H. destruct H as (b & Hb & H).
    apply bind_Ok in H. destruct H as (bs' & Hbs & H). injection H as <-.
    destruct (IH bs' Hbs) as [Hlen Hall]. split; [simpl; now rewrite Hlen|].
    intros [|i] a' Hi; simpl in *.
    + injection Hi as <-. eauto.
    + now apply Hall.
Qed.

Lemma mapM_total {A B : Type} (f : A -> result B) (l : list A) :
  (forall a, a ∈ l -> exists b, f a = Ok b) -> exists bs, mapM f l = Ok bs.
Proof.
  induction l as [|a l IH]; intros H; simpl.
  - eauto.
  - destruct (H a) as (b & Hb); [now left|]. rewrite Hb. cbn [bind].
    destruct IH as (bs & Hbs); [intros a' Ha'; apply H; now right|].
    rewrite Hbs. cbn [bind]. eauto.
Qed.

Lemma mapM_raise {A B : Type} (f : A -> result B) (l : list A) (e : exn) :
  mapM f l = Raise e -> exists a, a ∈ l /\ f a = Raise e.
Proof.
  induction l as [|a l IH]; simpl; [discriminate|].
  destruct (f a) as [b|e'] eqn:Hfa; cbn [bind].
  - destruct (mapM f l) as [bs|e'] eqn:Hl; cbn [bind]; [discriminate|].
    intros [= ->]. destruct (IH eq_refl) as (a' & Ha' & Hfa').
    exists a'. split; [now right|exact Hfa'].
  - intros [= ->]. exists a. split; [now left|exact Hfa].
Qed.

Lemma py_index_raise {A : Type} (l : list A) (i : Z) (e : exn) :
  py_index l i = Raise e -> e = IndexError.
Proof.
  unfold py_index.
  destruct ((0 <=? (if i <? 0 then i + Z.of_nat (length l) else i)) &&
            ((if i <? 0 then i + Z.of_nat (length l) else i) <? Z.of_nat (length l))).
  - destruct (l !! Z.to_nat (if i <? 0 then i + Z.of_nat (length l) else i));
      [discriminate|congruence].
  - congruence.
Qed.

Lemma py_index_Ok_nonneg {A : Type} (l : list A) (i : Z) (a : A) :
  0 <= i -> py_index l i = Ok a -> l !! Z.to_nat i = Some a.
Proof.
  intros Hi. unfold py_index.
  destruct (Z.ltb_spec i 0) as [Hneg|_]; [lia|].
  destruct ((0 <=? i) && (i <? Z.of_nat (length l))); [|discriminate].
  destruct (l !! Z.to_nat i); [congruence|discriminate].
Qed.

Lemma length_list_ascii_of_string (s : string) :
  length (list_ascii_of_string s) = String.length s.
Proof. induction s as [|c s IH]; simpl; [reflexivity|now rewrite IH]. Qed.

Lemma get_string_of_list_ascii (l : list ascii) (n : nat) :
  String.get n (string_of_list_ascii l) = l !! n.
Proof.
  rewrite <- lookup_list_ascii_of_string.
  now rewrite list_ascii_of_string_of_list_ascii.
Qed.

Lemma length_string_of_list_ascii (l : list ascii) :
  String.length (string_of_list_ascii l) = length l.
Proof.
  rewrite <- length_list_ascii_of_string.
  now rewrite list_ascii_of_string_of_list_ascii.
Qed.

Lemma range_lookup (n : Z) (i : nat) :
  Z.of_nat i < n -> range n !! i = Some (Z.of_nat i).
Proof. intros H. unfold range. now rewrite lookup_seqZ_lt. Qed.

Lemma range_length (n : Z) : length (range n) = Z.to_nat n.
Proof. apply length_seqZ. Qed.

Lemma range_desc_lookup (h c : nat) :
  (c < h)%nat -> range_desc (Z.of_nat h) !! c = Some (Z.of_nat (h - 1 - c)).
Proof.
  intros Hc. unfold range_desc.
  rewrite reverse_lookup by (rewrite range_length; lia).
  rewrite range_length, Nat2Z.id.
  replace (h - S c)%nat with (h - 1 - c)%nat by lia.
  apply range_lookup. lia.
Qed.

Lemma range_desc_elem (h y : Z) : y ∈ range_desc h -> 0 <= y < h.
Proof.
  unfold range_desc, range. rewrite elem_of_reverse, elem_of_seqZ. lia.
Qed.

(** The character read by the inner loop of [rotate]. *)
Lemma rotate_read (s : Shape) (x y : Z) (ch : ascii) :
  0 <= x -> 0 <= y ->
  (let* row := py_index (map list_ascii_of_string s) y in py_index row x) = Ok ch <->
  cell_at s (Z.to_nat y) (Z.to_nat x) = Some ch.
Proof.
  intros Hx Hy. unfold cell_at, Shape in *. split.
  - intros H. apply bind_Ok in H. destruct H as (row & Hrow & Hch).
    apply py_index_Ok_nonneg in Hrow; [|exact Hy].
    apply py_index_Ok_nonneg in Hch; [|exact Hx].
    change (map list_ascii_of_string s) with (list_ascii_of_string <$> s) in Hrow.
    rewrite list_lookup_fmap in Hrow.
    destruct (s !! Z.to_nat y) as [r|]; simpl in Hrow; [|discriminate Hrow].
    injection Hrow as <-. now rewrite <- lookup_list_ascii_of_string.
  - destruct (s !! Z.to_nat y) as [r|] eqn:Hr; [|discriminate].
    intros Hch.
    assert (Hrow : map list_ascii_of_string s !! Z.to_nat y
                   = Some (list_ascii_of_string r)).
    { change (map list_ascii_of_string s) with (list_ascii_of_string <$> s).
      now rewrite list_lookup_fmap, Hr. }
    rewrite <- (Z2Nat.id y) at 1 by exact Hy.
    rewrite (py_index_nat _ _ _ Hrow). cbn [bind].
    rewrite <- (Z2Nat.id x) at 1 by exact Hx.
    apply py_index_nat. now rewrite lookup_list_ascii_of_string.
Qed.

Lemma get_Some_lt (row : string) (x : nat) (ch : ascii) :
  String.get x row = Some ch -> (x < String.length row)%nat.
Proof.
  rewrite <- lookup_list_ascii_of_string, <- length_list_ascii_of_string.
  apply lookup_lt_Some.
Qed.

Lemma get_lt_Some (row : string) (x : nat) :
  (x < String.length row)%nat -> exists ch, String.get x row = Some ch.
Proof.
  rewrite <- length_list_ascii_of_string. intros H.
  destruct (lookup_lt_is_Some_2 _ _ H) as (ch & Hch).
  exists ch. now rewrite <- lookup_list_ascii_of_string.
Qed.

(** What a returning [rotate] has built, row by row. *)
Lemma rotate_Ok_rows (s s' : Shape) :
  rotate s = Ok s' ->
  exists row0 rest,
    s = row0 :: rest /\
    length s' = String.length row0 /\
    forall r, (r < String.length row0)%nat ->
      exists b, s' !! r = Some b /\ String.length b = length s /\
        forall c, (c < length s)%nat ->
          exists ch, String.get c b = Some ch /\
                     cell_at s (length s - 1 - c) r = Some ch.
Proof.
  unfold rotate. intros H. apply bind_Ok in H. destruct H as (l0 & Hl0 & H).
  destruct s as [|row0 rest]; [discriminate Hl0|].
  exists row0, rest. split; [reflexivity|].
  change (py_index (map list_ascii_of_string (row0 :: rest)) 0)
    with (Ok (A := list ascii) (list_ascii_of_string row0)) in Hl0.
  injection Hl0 as <-.
  rewrite length_list_ascii_of_string in H.
  rewrite length_map in H.
  destruct (mapM_lookup _ _ _ H) as [Hlen Hrows].
  rewrite range_length, Nat2Z.id in Hlen. split; [exact Hlen|].
  intros r Hr.
  destruct (Hrows r (Z.of_nat r)) as (b & Hb & Hfb); [apply range_lookup; lia|].
  exists b. split; [exact Hb|].
  apply bind_Ok in Hfb. destruct Hfb as (new_row & Hnew & Hfb).
  injection Hfb as <-.
  destruct (mapM_lookup _ _ _ Hnew) as [Hlen' Hcells].
  assert (Hh : length (range_desc (Z.of_nat (length (row0 :: rest))))
               = length (row0 :: rest)).
  { unfold range_desc. now rewrite length_reverse, range_length, Nat2Z.id. }
  split; [rewrite length_string_of_list_ascii; congruence|].
  intros c Hc.
  destruct (Hcells c _ (range_desc_lookup _ c Hc)) as (ch & Hch & Hread).
  exists ch. split; [now rewrite get_string_of_list_ascii|].
  apply rotate_read in Hread; [|lia|lia].
  now rewrite !Nat2Z.id in Hread.
Qed.

(** [rotate] returns on a shape whose rows are all at least as long as the
    first. *)
Lemma rotate_returns (row0 : string) (rest : Shape) :
  Forall (fun row => (String.length row0 <= String.length row)%nat) rest ->
  exists s', rotate (row0 :: rest) = Ok s'.
Proof.
  intros Hrest. unfold rotate.
  change (py_index (map list_ascii_of_string (row0 :: rest)) 0)
    with (Ok (A := list ascii) (list_ascii_of_string row0)).
  cbn [bind]. rewrite length_list_ascii_of_string, length_map.
  apply mapM_total. intros x Hx. apply elem_of_seqZ in Hx.
  destruct (mapM_total
              (fun y => let* row := py_index (map list_ascii_of_string (row0 :: rest)) y
                        in py_index row x)
              (range_desc (Z.of_nat (length (row0 :: rest))))) as (new_row & Hnew).
  { intros y Hy. apply range_desc_elem in Hy.
    assert (Hrow : exists row, (row0 :: rest) !! Z.to_nat y = Some row)
      by (apply lookup_lt_is_Some_2; lia).
    destruct Hrow as (row & Hrow).
    assert (Hlong : (String.length row0 <= String.length row)%nat).
    { destruct (Z.to_nat y) as [|n] eqn:Hn; simpl in Hrow.
      - injection Hrow as <-. lia.
      - rewrite Forall_forall in Hrest. apply Hrest.
        apply list_elem_of_lookup. eauto. }
    destruct (get_lt_Some row (Z.to_nat x)) as (ch & Hch); [lia|].
    exists ch. apply rotate_read; [lia|lia|].
    unfold cell_at, Shape in *. now rewrite Hrow. }
  rewrite Hnew. cbn [bind]. eauto.
Qed.

Lemma rotate_rect_core (s : Shape) (h w : nat) :
  rectangular s h w -> (0 < h)%nat ->
  exists s',
    rotate s = Ok s' /\ rectangular s' w h /\
    forall r c, (r < w)%nat -> (c < h)%nat ->
      cell_at s' r c = cell_at s (h - 1 - c) r.
Proof.
  intros [Hh Hw] Hpos.
  destruct s as [|row0 rest]; [simpl in Hh; lia|].
  apply Forall_cons in Hw. destruct Hw as [Hw0 Hw].
  destruct (rotate_returns row0 rest) as (s' & Hs').
  { eapply Forall_impl; [exact Hw|]. intros row Hrow. simpl in Hrow. lia. }
  exists s'. split; [exact Hs'|].
  destruct (rotate_Ok_rows _ _ Hs') as (row0' & rest' & Heq & Hlen & Hrows).
  injection Heq as <- <-. rewrite Hw0 in Hlen, Hrows. rewrite Hh in Hrows.
  split; [split; [exact Hlen|]|].
  - apply Forall_lookup. intros r b Hb.
    pose proof (lookup_lt_Some _ _ _ Hb) as Hr. rewrite Hlen in Hr.
    destruct (Hrows r Hr) as (b' & Hb' & Hbl & _).
    unfold Shape in *. congruence.
  - intros r c Hr Hc.
    destruct (Hrows r Hr) as (b & Hb & _ & Hcells).
    destruct (Hcells c Hc) as (ch & Hch & Hsrc).
    unfold cell_at at 1. unfold Shape in *. rewrite Hb, Hch. now rewrite Hsrc.
Qed.

Lemma shape_ext (s s' : Shape) (h w : nat) :
  rectangular s h w -> rectangular s' h w ->
  (forall r c, (r < h)%nat -> (c < w)%nat -> cell_at s r c = cell_at s' r c) ->
  s = s'.
Proof.
  intros [Hh Hw] [Hh' Hw'] Hcells. unfold Shape in *.
  apply list_eq. intros r.
  destruct (decide (r < h)%nat) as [Hr|Hr].
  - destruct (lookup_lt_is_Some_2 s r) as (row & Hrow); [lia|].
    destruct (lookup_lt_is_Some_2 s' r) as (row' & Hrow'); [lia|].
    rewrite Hrow, Hrow'. f_equal. apply String.get_correct. intros c.
    rewrite Forall_lookup in Hw, Hw'.
    pose proof (Hw r row Hrow) as Hl. pose proof (Hw' r row' Hrow') as Hl'.
    destruct (decide (c < w)%nat) as [Hc|Hc].
    + specialize (Hcells r c Hr Hc). unfold cell_at, Shape in Hcells.
      now rewrite Hrow, Hrow' in Hcells.
    + rewrite <- !lookup_list_ascii_of_string.
      rewrite !lookup_ge_None_2; [reflexivity| |];
        rewrite length_list_ascii_of_string; lia.
  - rewrite !lookup_ge_None_2; [reflexivity| |]; lia.
Qed.

(** X1: on a shape of h >= 1 rows of w characters each, the module-level
    [rotate] returns a shape of w rows of h characters, whose row r reads,
    left to right, column r of the argument from the bottom row up. *)
Theorem rotate_rectangular (s : Shape) (h w : nat) :
  rectangular s h w -> (0 < h)%nat ->
  exists s',
    rotate s = Ok s' /\ rectangular s' w h /\
    forall r c, (r < w)%nat -> (c < h)%nat ->
      cell_at s' r c = cell_at s (h - 1 - c) r.
Proof. apply rotate_rect_core. Qed.

(** X2: [rotate] returns exactly on the non-empty shapes none of whose
    rows is shorter than the first; on every other shape it raises, and the
    exception is IndexError. *)
Theorem rotate_returns_iff (s : Shape) :
  ((exists s', rotate s = Ok s') <->
   exists row0 rest,
     s = row0 :: rest /\
     Forall (fun row => (String.length row0 <= String.length row)%nat) rest) /\
  (forall e, rotate s = Raise e -> e = IndexError).
Proof.
  split; [split|].
  - intros (s' & Hs').
    destruct (rotate_Ok_rows _ _ Hs') as (row0 & rest & -> & _ & Hrows).
    exists row0, rest. split; [reflexivity|].
    apply Forall_lookup. intros i row Hrow.
    destruct (Nat.le_gt_cases (String.length row0) (String.length row))
      as [Hle|Hgt]; [exact Hle|exfalso].
    pose proof (lookup_lt_Some _ _ _ Hrow) as Hi.
    destruct (Hrows (String.length row) Hgt) as (b & _ & _ & Hcells).
    destruct (Hcells (length rest - 1 - i)%nat) as (ch & _ & Hsrc);
      [simpl; lia|].
    unfold cell_at, Shape in Hsrc.
    replace (length (row0 :: rest) - 1 - (length rest - 1 - i))%nat
      with (S i) in Hsrc by (simpl; lia).
    simpl in Hsrc. rewrite Hrow in Hsrc.
    apply get_Some_lt in Hsrc. lia.
  - intros (row0 & rest & -> & Hrest). now apply rotate_returns.
  - unfold rotate. intros e H.
    destruct (py_index (map list_ascii_of_string s) 0) as [l0|e0] eqn:Hl0;
      cbn [bind] in H.
    + apply mapM_raise in H. destruct H as (x & _ & H).
      match type of H with
      | bind ?m _ = _ => destruct m as [new_row|e1] eqn:Hnew
      end; cbn [bind] in H; [discriminate H|].
      injection H as ->.
      apply mapM_raise in Hnew. destruct Hnew as (y & _ & Hy).
      match type of Hy with
      | bind ?m _ = _ => destruct m as [row|e2] eqn:Hrow
      end; cbn [bind] in Hy.
      * now apply py_index_raise in Hy.
      * injection Hy as ->. now apply py_index_raise in Hrow.
    + injection H as ->. now apply py_index_raise in Hl0.
Qed.

(** X3: four applications of [rotate] to a shape of h >= 1 rows of w >= 1
    characters each all return, and the fourth returns the shape it started
    from. *)
Theorem rotate_four_times (s : Shape) (h w : nat) :
  rectangular s h w -> (0 < h)%nat -> (0 < w)%nat ->
  exists s1 s2 s3,
    rotate s = Ok s1 /\ rotate s1 = Ok s2 /\
    rotate s2 = Ok s3 /\ rotate s3 = Ok s.
Proof.
  intros Hs Hh Hw.
  destruct (rotate_rect_core s h w Hs Hh) as (s1 & H1 & R1 & C1).
  destruct (rotate_rect_core s1 w h R1 Hw) as (s2 & H2 & R2 & C2).
  destruct (rotate_rect_core s2 h w R2 Hh) as (s3 & H3 & R3 & C3).
  destruct (rotate_rect_core s3 w h R3 Hw) as (s4 & H4 & R4 & C4).
  exists s1, s2, s3. repeat split; auto.
  rewrite H4. f_equal. apply (shape_ext s4 s h w R4 Hs).
  intros r c Hr Hc.
  rewrite C4 by assumption.
  rewrite C3 by lia.
  rewrite C2 by lia.
  rewrite C1 by lia.
  f_equal; lia.
Qed.

(** X4: in the shape table every rotation state after the first is what
    [rotate] returns on the state before it, and for the pieces with four
    states (J, L, T) and for O [rotate] takes the last state back to the
    first. *)
Theorem table_states_are_rotations :
  (forall (k : PieceKey) (i : nat) (s s' : Shape),
     TETROMINOES k !! i = Some s -> TETROMINOES k !! S i = Some s' ->
     rotate s = Ok s') /\
  (forall (k : PieceKey) (s0 s : Shape),
     k = J_ \/ k = L_ \/ k = T_ \/ k = O_ ->
     head (TETROMINOES k) = Some s0 -> last (TETROMINOES k) = Some s ->
     rotate s = Ok s0).
Proof.
  split.
  - intros k i s s' Hs Hs'.
    destruct k; destruct i as [|[|[|[|i]]]]; simpl in Hs, Hs';
      try discriminate; injection Hs as <-; injection Hs' as <-;
      vm_compute; reflexivity.
  - intros k s0 s Hk Hs0 Hs.
    destruct Hk as [->|[->|[->| ->]]]; simpl in Hs0; injection Hs0 as <-;
      vm_compute in Hs; injection Hs as <-; vm_compute; reflexivity.
Qed.

(** ** [make_grid] *)

Lemma make_grid_step_dims (k : Z * Z) (color : Color) (grid grid' : Grid) :
  make_grid_step k color (Ok grid) = Ok grid' ->
  length grid' = length grid /\
  (forall n, Forall (fun row => length row = n) grid ->
             Forall (fun row => length row = n) grid').
Proof.
  destruct k as [x y]. unfold make_grid_step. cbn [bind].
  destruct ((0 <=? y) && (y <? ROWS) && (0 <=? x) && (x <? COLUMNS));
    [|intros [= <-]; auto].
  intros H. apply bind_Ok in H. destruct H as (row & Hrow & H).
  apply bind_Ok in H. destruct H as (row' & Hrow' & H).
  unfold py_setitem in Hrow', H.
  match type of Hrow' with (if ?c then _ else _) = _ => destruct c end;
    [|discriminate Hrow'].
  match type of H with (if ?c then _ else _) = _ => destruct c end;
    [|discriminate H].
  injection Hrow' as <-. injection H as <-.
  split; [apply length_insert|].
  intros n Hall. apply Forall_insert; [exact Hall|].
  rewrite length_insert.
  unfold py_index in Hrow.
  match type of Hrow with (if ?c then _ else _) = _ => destruct c end;
    [|discriminate Hrow].
  match type of Hrow with match ?l with _ => _ end = _ => destruct l eqn:Hl end;
    [|discriminate Hrow].
  injection Hrow as <-.
  rewrite Forall_lookup in Hall. eapply Hall. exact Hl.
Qed.

Lemma make_grid_dims (locked : Locked) (grid : Grid) :
  make_grid locked = Ok grid ->
  length grid = Z.to_nat ROWS /\
  Forall (fun row => length row = Z.to_nat COLUMNS) grid.
Proof.
  unfold make_grid. revert grid.
  apply (map_fold_weak_ind
           (fun (r : result Grid) (m : Locked) =>
              forall grid, r = Ok grid ->
                length grid = Z.to_nat ROWS /\
                Forall (fun row => length row = Z.to_nat COLUMNS) grid)).
  - intros grid [= <-]. split; [reflexivity|].
    unfold empty_grid. apply Forall_forall. intros row Hrow.
    apply list_elem_of_In, in_map_iff in Hrow. destruct Hrow as (y & <- & _).
    reflexivity.
  - intros k color m r _ IH grid Hstep.
    destruct r as [g|e]; [|discriminate Hstep].
    destruct (IH g eq_refl) as [Hlen Hall].
    destruct (make_grid_step_dims _ _ _ _ Hstep) as [Hlen' Hall'].
    split; [congruence|now apply Hall'].
Qed.

(** X5: [make_grid] never raises; the grid it returns has [ROWS] rows of
    [COLUMNS] entries, and its entry at row y, column x is the colour the
    dictionary holds at (x, y), or None when it holds none. *)
Theorem make_grid_spec (locked : Locked) :
  exists grid,
    make_grid locked = Ok grid /\
    Z.of_nat (length grid) = ROWS /\
    Forall (fun row => Z.of_nat (length row) = COLUMNS) grid /\
    forall x y, 0 <= x < COLUMNS -> 0 <= y < ROWS ->
      (let* row := py_index grid y in py_index row x) = Ok (locked !! (x, y)).
Proof.
  destruct (make_grid_of locked) as (grid & Hgrid & Hof).
  destruct (make_grid_dims _ _ Hgrid) as [Hlen Hall].
  exists grid. split; [exact Hgrid|]. split; [rewrite Hlen; reflexivity|].
  split.
  - eapply Forall_impl; [exact Hall|]. intros row Hrow. simpl in Hrow.
    rewrite Hrow. reflexivity.
  - intros x y Hx Hy.
    destruct (Hof x y) as (row & Hrow & Hcell); [split; assumption|].
    rewrite <- (Z2Nat.id y) at 1 by lia. rewrite (py_index_nat _ _ _ Hrow).
    cbn [bind]. rewrite <- (Z2Nat.id x) at 1 by lia.
    now apply py_index_nat.
Qed.

(** X6: [make_grid] looks only at the part of the dictionary that lies on
    the board: two dictionaries that agree at every coordinate of the board
    give the same grid, whatever keys they hold elsewhere. *)
Theorem make_grid_board_only (m1 m2 : Locked) :
  (forall x y, in_board x y -> m1 !! (x, y) = m2 !! (x, y)) ->
  make_grid m1 = make_grid m2.
Proof.
  intros Hagree.
  destruct (make_grid_of m1) as (g1 & Hg1 & Hof1).
  destruct (make_grid_of m2) as (g2 & Hg2 & Hof2).
  destruct (make_grid_dims _ _ Hg1) as [Hlen1 Hall1].
  destruct (make_grid_dims _ _ Hg2) as [Hlen2 Hall2].
  rewrite Hg1, Hg2. f_equal. apply list_eq. intros j.
  destruct (decide (j < Z.to_nat ROWS)%nat) as [Hj|Hj].
  - destruct (lookup_lt_is_Some_2 g1 j) as (r1 & Hr1); [lia|].
    destruct (lookup_lt_is_Some_2 g2 j) as (r2 & Hr2); [lia|].
    rewrite Hr1, Hr2. f_equal. apply list_eq. intros i.
    rewrite Forall_lookup in Hall1, Hall2.
    pose proof (Hall1 j r1 Hr1) as Hl1. pose proof (Hall2 j r2 Hr2) as Hl2.
    destruct (decide (i < Z.to_nat COLUMNS)%nat) as [Hi|Hi].
    + assert (Hb : in_board (Z.of_nat i) (Z.of_nat j)) by (unfold in_board; lia).
      destruct (Hof1 _ _ Hb) as (r1' & Hr1' & Hc1).
      destruct (Hof2 _ _ Hb) as (r2' & Hr2' & Hc2).
      rewrite Nat2Z.id in *. rewrite (Hagree _ _ Hb) in Hc1. congruence.
    + rewrite !lookup_ge_None_2; [reflexivity| |]; lia.
  - rewrite !lookup_ge_None_2; [reflexivity| |]; lia.
Qed.

(** ** Rotation, in both directions *)

Lemma try_kicks_none_inv (self : Piece.t) (locked : Locked) (kicks : list Z) :
  Piece.try_kicks self locked kicks = None ->
  forall dx, In dx kicks ->
    valid_space (Piece.shape self) (Piece.x self + dx) (Piece.y self) locked = false.
Proof.
  induction kicks as [|d rest IH]; simpl; [intros _ dx []|].
  destruct (valid_space (Piece.shape self) (Piece.x self + d) (Piece.y self) locked)
    eqn:Hd; [discriminate|].
  intros H dx [<-|Hin]; [exact Hd|now apply IH].
Qed.

Lemma py_index_elem {A : Type} (l : list A) (i : Z) (a : A) :
  py_index l i = Ok a -> a ∈ l.
Proof.
  unfold py_index.
  destruct ((0 <=? (if i <? 0 then i + Z.of_nat (length l) else i)) &&
            ((if i <? 0 then i + Z.of_nat (length l) else i) <? Z.of_nat (length l)));
    [|discriminate].
  destruct (l !! Z.to_nat (if i <? 0 then i + Z.of_nat (length l) else i))
    as [a'|] eqn:Ha; [|discriminate].
  intros [= <-]. apply list_elem_of_lookup. eauto.
Qed.

(** Every way [turn_to] can end, given the two states it reads. *)
Lemma turn_to_cases (p : Piece.t) (old r : Z) (locked : Locked) (s s_old : Shape) :
  py_index (Piece.rotations p) r = Ok s ->
  py_index (Piece.rotations p) old = Ok s_old ->
  (valid_space s (Piece.x p) (Piece.y p) locked = true /\
   Piece.turn_to p old r locked
   = Ok (true, Piece.mk (Piece.type p) (Piece.rotations p) r s
                        (Piece.x p) (Piece.y p) (Piece.color p))) \/
  (valid_space s (Piece.x p) (Piece.y p) locked = false /\
   exists dx, In dx [-1; 1; -2; 2] /\
     valid_space s (Piece.x p + dx) (Piece.y p) locked = true /\
     Piece.turn_to p old r locked
     = Ok (true, Piece.mk (Piece.type p) (Piece.rotations p) r s
                          (Piece.x p + dx) (Piece.y p) (Piece.color p))) \/
  (valid_space s (Piece.x p) (Piece.y p) locked = false /\
   (forall dx, In dx [-1; 1; -2; 2] ->
      valid_space s (Piece.x p + dx) (Piece.y p) locked = false) /\
   Piece.turn_to p old r locked
   = Ok (false, Piece.mk (Piece.type p) (Piece.rotations p) old s_old
                         (Piece.x p) (Piece.y p) (Piece.color p))).
Proof.
  intros Hs Hold. unfold Piece.turn_to.
  cbn -[Piece.try_kicks valid_space]. rewrite Hs.
  cbn -[Piece.try_kicks valid_space].
  destruct (valid_space s (Piece.x p) (Piece.y p) locked) eqn:Hv;
    cbn -[Piece.try_kicks valid_space].
  - left. split; reflexivity.
  - right.
    destruct (Piece.try_kicks _ locked Piece.KICKS) as [q|] eqn:Hk.
    + left. split; [reflexivity|].
      apply try_kicks_some in Hk. destruct Hk as (dx & Hin & -> & Hdx).
      exists dx. split; [exact Hin|]. split; [exact Hdx|reflexivity].
    + right. split; [reflexivity|]. split.
      * exact (try_kicks_none_inv _ _ _ Hk).
      * rewrite Hold. reflexivity.
Qed.

(** The outcome of a rotation by [delta] (+1 or -1) of a piece whose shape
    is in step with its index. *)
Lemma rotation_outcome_core (p : Piece.t) (locked : Locked) (ccw : bool) :
  let delta := if ccw then -1 else 1 in
  let run := if ccw then Piece.rotate_ccw else Piece.rotate in
  shape_in_sync p ->
  exists b p',
    run p locked = Ok (b, p') /\
    Piece.type p' = Piece.type p /\
    Piece.rotations p' = Piece.rotations p /\
    Piece.y p' = Piece.y p /\
    Piece.color p' = Piece.color p /\
    shape_in_sync p' /\
    (b = true ->
     Piece.rotation p' = (Piece.rotation p + delta) mod state_count p /\
     valid_space (Piece.shape p') (Piece.x p') (Piece.y p') locked = true /\
     (Piece.x p' = Piece.x p <->
      valid_space (Piece.shape p') (Piece.x p) (Piece.y p) locked = true)) /\
    (b = false -> p' = p).
Proof.
  intros delta run Hsync.
  pose proof (py_index_Ok_length _ _ _ Hsync) as Hlen.
  assert (Hr : exists s, py_index (Piece.rotations p)
                 ((Piece.rotation p + delta) mod state_count p) = Ok s).
  { destruct (py_index_in_range (Piece.rotations p)
                ((Piece.rotation p + delta) mod state_count p)) as (s & _ & Hs).
    - apply Z.mod_pos_bound. exact Hlen.
    - eauto. }
  destruct Hr as (s & Hs).
  assert (Hrun : run p locked
                 = Piece.turn_to p (Piece.rotation p)
                     ((Piece.rotation p + delta) mod state_count p) locked).
  { subst run delta. destruct ccw; unfold Piece.rotate_ccw, Piece.rotate;
      [replace (Piece.rotation p - 1) with (Piece.rotation p + -1) by lia|];
      rewrite py_mod_Ok by lia; reflexivity. }
  rewrite Hrun.
  destruct (turn_to_cases p (Piece.rotation p) _ locked s (Piece.shape p) Hs Hsync)
    as [[Hv ->]|[(Hv & dx & Hin & Hdx & ->)|(Hv & Hall & ->)]].
  - eexists _, _. split; [reflexivity|]. cbn.
    repeat split; auto; try discriminate.
  - eexists _, _. split; [reflexivity|]. cbn.
    repeat split; auto; try discriminate.
    + intros Hx. exfalso. simpl in Hin. lia.
    + intros Hv'. congruence.
  - eexists _, _. split; [reflexivity|]. cbn.
    repeat split; auto; try discriminate.
    intros _. destruct p; reflexivity.
Qed.

(** X7: on a piece whose shape is in step with its rotation index,
    [rotate] and [rotate_ccw] never raise; the piece they leave keeps its
    type, rotation states, row and colour and is again in step; when they
    return True the new index is the old one plus or minus one modulo the
    number of states and the new position is one [valid_space] accepts,
    the column being unchanged exactly when the new state fits at the old
    anchor; when they return False the piece is as it was. *)
Theorem rotation_outcome (p : Piece.t) (locked : Locked) (ccw : bool) :
  let delta := if ccw then -1 else 1 in
  let run := if ccw then Piece.rotate_ccw else Piece.rotate in
  shape_in_sync p ->
  exists b p',
    run p locked = Ok (b, p') /\
    Piece.type p' = Piece.type p /\
    Piece.rotations p' = Piece.rotations p /\
    Piece.y p' = Piece.y p /\
    Piece.color p' = Piece.color p /\
    shape_in_sync p' /\
    (b = true ->
     Piece.rotation p' = (Piece.rotation p + delta) mod state_count p /\
     valid_space (Piece.shape p') (Piece.x p') (Piece.y p') locked = true /\
     (Piece.x p' = Piece.x p <->
      valid_space (Piece.shape p') (Piece.x p) (Piece.y p) locked = true)) /\
    (b = false -> p' = p).
Proof. apply rotation_outcome_core. Qed.

(** X8: a clockwise rotation that succeeds without a wall kick, from a
    position [valid_space] accepts, is undone by [rotate_ccw]: it returns
    True and the piece is exactly the one before the two rotations. *)
Theorem rotate_then_rotate_ccw (p p1 : Piece.t) (locked : Locked) :
  piece_ok p locked ->
  Piece.rotate p locked = Ok (true, p1) ->
  Piece.x p1 = Piece.x p ->
  Piece.rotate_ccw p1 locked = Ok (true, p).
Proof.
  intros (Hrots & Hr & Hsync & Hvalid) Hrun Hx.
  destruct (rotation_outcome_core p locked false Hsync)
    as (b & p1' & Hrun' & Ht & Hrs & Hy & Hc & Hsync1 & Htrue & _).
  cbv zeta in Hrun'. rewrite Hrun in Hrun'. injection Hrun' as <- <-.
  destruct (Htrue eq_refl) as (Hrot1 & _ & _).
  assert (Hn : state_count p1 = state_count p)
    by (unfold state_count; now rewrite Hrs).
  assert (Hback : (Piece.rotation p1 + -1) mod state_count p1 = Piece.rotation p).
  { rewrite Hn, Hrot1, Zplus_mod_idemp_l.
    replace (Piece.rotation p + 1 + -1) with (Piece.rotation p) by lia.
    apply Z.mod_small. exact Hr. }
  unfold Piece.rotate_ccw.
  replace (Piece.rotation p1 - 1) with (Piece.rotation p1 + -1) by lia.
  fold (state_count p1). rewrite py_mod_Ok by lia. cbn [bind].
  rewrite Hback.
  assert (Hs : py_index (Piece.rotations p1) (Piece.rotation p) = Ok (Piece.shape p))
    by (rewrite Hrs; exact Hsync).
  destruct (turn_to_cases p1 (Piece.rotation p1) (Piece.rotation p) locked
              (Piece.shape p) (Piece.shape p1) Hs Hsync1)
    as [[Hv ->]|[(Hv & _)|(Hv & _)]].
  - f_equal. f_equal. destruct p; simpl in *. congruence.
  - rewrite Hx, Hy, Hvalid in Hv. discriminate.
  - rewrite Hx, Hy, Hvalid in Hv. discriminate.
Qed.

(** ** Spawning, again *)

Lemma spawned_piece_ok (p : Piece.t) (locked : Locked) :
  spawned p -> piece_ok p locked.
Proof.
  intros (k & Hk).
  assert (Hcols : forall cx cy,
            In (cx, cy) (shape_cells (Piece.shape p) (Piece.x p) (Piece.y p)) ->
            0 <= cx < COLUMNS /\ cy < 0).
  { destruct k; vm_compute in Hk; injection Hk as <-; intros cx cy Hin;
      vm_compute in Hin;
      repeat (destruct Hin as [Hin|Hin]; [injection Hin as <- <-; vm_compute; intuition congruence|]);
      contradiction. }
  split; [|split; [|split]].
  - destruct k; vm_compute in Hk; injection Hk as <-; reflexivity.
  - destruct k; vm_compute in Hk; injection Hk as <-; vm_compute;
      split; congruence.
  - destruct k; vm_compute in Hk; injection Hk as <-; vm_compute; reflexivity.
  - unfold valid_space. apply valid_cells_spec. intros cx cy Hin.
    destruct (Hcols cx cy Hin) as [Hx Hy]. unfold ROWS. repeat split; try lia.
Qed.

(** X9: a freshly made piece of any type is at a position [valid_space]
    accepts whatever the locked cells are, since all its cells lie above
    row 0 and within the columns of the board: spawning is never refused. *)
Theorem spawn_always_valid (k : PieceKey) (locked : Locked) :
  exists p,
    Piece.init k = Ok p /\
    valid_space (Piece.shape p) (Piece.x p) (Piece.y p) locked = true.
Proof.
  destruct (init_total k) as (p & Hp). exists p. split; [exact Hp|].
  apply (spawned_piece_ok p locked). now exists k.
Qed.

(** ** After [clear_lines] *)

Lemma rows_cleared_no_full_row (m0 m2 : Locked) :
  rows_cleared (full_rows m0) m0 m2 -> no_full_row m2.
Proof.
  intros (_ & Horigin & _) y Hy Hfull.
  assert (Hsrc : forall x, 0 <= x < COLUMNS ->
            exists r c, 0 <= r < ROWS /\ (r ∉ full_rows m0) /\
                        y = r + shift_of (full_rows m0) r /\
                        m0 !! (x, r) = Some c).
  { intros x Hx. destruct (Hfull x Hx) as (c & Hc).
    destruct (Horigin x y c) as (r & [_ Hr] & Hnin & Hyr & Hrc);
      [split; assumption|exact Hc|].
    exists r, c. auto. }
  destruct (Hsrc 0) as (r0 & c0 & Hr0 & Hnin0 & Hy0 & _); [unfold COLUMNS; lia|].
  apply Hnin0. apply full_rows_elem. split; [exact Hr0|].
  intros x Hx. destruct (Hsrc x Hx) as (r & c & Hr & Hnin & Hyr & Hrc).
  assert (r = r0) as ->; [|eauto].
  destruct (Z.lt_trichotomy r r0) as [Hlt|[Heq|Hgt]]; [|exact Heq|].
  - pose proof (shift_of_between (row_fullb m0) (full_rows m0) eq_refl r r0 Hlt Hnin0).
    lia.
  - pose proof (shift_of_between (row_fullb m0) (full_rows m0) eq_refl r0 r
                  ltac:(lia) Hnin).
    lia.
Qed.

(** X10: after [clear_lines] on the grid derived from the dictionary no row
    of the board is full any more, so running it again on the new
    dictionary returns 0 and leaves the dictionary alone. *)
Theorem clear_lines_twice (locked : Locked) :
  exists grid n locked' grid',
    make_grid locked = Ok grid /\
    clear_lines grid locked = Ok (n, locked') /\
    no_full_row locked' /\
    make_grid locked' = Ok grid' /\
    clear_lines grid' locked' = Ok (0, locked').
Proof.
  destruct (make_grid_of locked) as (grid & Hgrid & Hof).
  destruct (clear_lines_grid_of grid locked Hof) as (locked' & Hrun & Hrows).
  destruct (make_grid_of locked') as (grid' & Hgrid' & Hof').
  pose proof (rows_cleared_no_full_row _ _ Hrows) as Hnone.
  exists grid, (Z.of_nat (length (full_rows locked))), locked', grid'.
  split; [exact Hgrid|]. split; [exact Hrun|]. split; [exact Hnone|].
  split; [exact Hgrid'|].
  unfold clear_lines.
  rewrite (full_lines_of grid' locked' _ [] Hof' (Forall_range ROWS)).
  cbn [app bind]. fold (full_rows locked').
  now rewrite (full_rows_none locked' Hnone).
Qed.

(** ** What [lock_piece] keeps *)

Lemma table_cells_four (k : PieceKey) (s : Shape) (offset_x offset_y : Z) :
  s ∈ TETROMINOES k -> length (shape_cells s offset_x offset_y) = 4%nat.
Proof.
  intros Hs. destruct k; simpl in Hs;
    repeat (apply elem_of_cons in Hs; destruct Hs as [->|Hs]; [reflexivity|]);
    inversion Hs.
Qed.

Lemma forallb_false_exists {A : Type} (f : A -> bool) (l : list A) :
  forallb f l = false -> exists a, a ∈ l /\ f a = false.
Proof.
  induction l as [|a l IH]; simpl; [discriminate|].
  destruct (f a) eqn:Ha; simpl.
  - intros H. destruct (IH H) as (a' & Hin & Ha'). exists a'.
    split; [now right|exact Ha'].
  - intros _. exists a. split; [now left|exact Ha].
Qed.

Lemma score_table_nonneg (c : Z) : 0 <= Tetris.score_table_get c.
Proof.
  destruct (Z.eq_dec c 1) as [->|H1]; [cbn; lia|].
  destruct (Z.eq_dec c 2) as [->|H2]; [cbn; lia|].
  destruct (Z.eq_dec c 3) as [->|H3]; [cbn; lia|].
  destruct (Z.eq_dec c 4) as [->|H4]; [cbn; lia|].
  rewrite score_table_other by lia. lia.
Qed.

(** The rows completed by a lock are rows the piece has a cell in. *)
Lemma new_full_rows (st : Tetris.t) (locked1 : Locked) :
  let cur := Tetris.current st in
  let cells := shape_cells (Piece.shape cur) (Piece.x cur) (Piece.y cur) in
  no_full_row (Tetris.locked st) ->
  (forall x y, locked1 !! (x, y)
               = if decide ((x, y) ∈ cells /\ 0 <= y) then Some (Piece.color cur)
                 else Tetris.locked st !! (x, y)) ->
  (length (full_rows locked1) <= length cells)%nat.
Proof.
  intros cur cells Hnone Hlook.
  assert (Hsub : full_rows locked1 ⊆+ map snd cells).
  { apply NoDup_submseteq.
    - unfold full_rows. apply NoDup_filter, NoDup_seqZ.
    - intros y Hy. apply full_rows_elem in Hy. destruct Hy as [Hy Hfull].
      destruct (row_fullb (Tetris.locked st) y) eqn:Hb.
      + apply row_fullb_spec in Hb. exfalso. exact (Hnone y Hy Hb).
      + apply forallb_false_exists in Hb. destruct Hb as (x & Hx & Hmem).
        apply elem_of_seqZ in Hx. apply mem_false in Hmem.
        destruct (Hfull x) as (c & Hc); [lia|].
        rewrite Hlook in Hc.
        destruct (decide ((x, y) ∈ cells /\ 0 <= y)) as [[Hin _]|_];
          [|congruence].
        apply list_elem_of_In, in_map_iff. exists (x, y).
        split; [reflexivity|now apply list_elem_of_In]. }
  apply submseteq_length in Hsub. now rewrite length_map in Hsub.
Qed.

Lemma lock_piece_invariant_core (st : Tetris.t) (choice : PieceKey) :
  invariant st ->
  exists st' cleared,
    Tetris.lock_piece st choice = Ok st' /\
    invariant st' /\
    0 <= cleared <= 4 /\
    Tetris.lines st' = Tetris.lines st + cleared /\
    Tetris.score st'
    = Tetris.score st + Tetris.score_table_get cleared * Tetris.level st /\
    Tetris.current st' = Tetris.next_piece st.
Proof.
  intros (Hb & Hnone & (Hrots & Hr & Hsync & Hvalid) & Hnext & Hscore & Hlines & Hlevel).
  destruct (lock_piece_run st choice)
    as (locked1 & locked2 & grid1 & fresh & _ & Hlook & _ & _ & Hrows & Hfresh & Hrun).
  pose proof (new_full_rows st locked1 Hnone Hlook) as Hcount.
  rewrite (table_cells_four (Piece.type (Tetris.current st))) in Hcount
    by (rewrite <- Hrots; exact (py_index_elem _ _ _ Hsync)).
  eexists. exists (Z.of_nat (length (full_rows locked1))).
  split; [exact Hrun|].
  cbn [Tetris.locked Tetris.current Tetris.next_piece Tetris.score Tetris.lines
       Tetris.level].
  assert (Hlevel0 : 1 <= Tetris.level st)
    by (rewrite Hlevel; pose proof (Z.div_pos (Tetris.lines st) 10); lia).
  pose proof (score_table_nonneg (Z.of_nat (length (full_rows locked1)))) as HT.
  split; [|split; [lia|]].
  - unfold invariant.
    cbn [Tetris.locked Tetris.current Tetris.next_piece Tetris.score Tetris.lines
         Tetris.level].
    split; [|split; [|split; [|split; [|split; [|split]]]]].
    + apply (rows_cleared_in_bounds _ _ _ Hrows).
      intros x y c Hc. rewrite Hlook in Hc.
      destruct (decide ((x, y) ∈ shape_cells (Piece.shape (Tetris.current st))
                                  (Piece.x (Tetris.current st))
                                  (Piece.y (Tetris.current st)) /\ 0 <= y))
        as [[Hin Hy]|_].
      * unfold valid_space in Hvalid. rewrite valid_cells_spec in Hvalid.
        apply list_elem_of_In in Hin. apply Hvalid in Hin.
        unfold in_board. lia.
      * now apply Hb in Hc.
    + exact (rows_cleared_no_full_row _ _ Hrows).
    + now apply spawned_piece_ok.
    + now exists choice.
    + destruct (Z.eqb_spec (Z.of_nat (length (full_rows locked1))) 0); nia.
    + destruct (Z.eqb_spec (Z.of_nat (length (full_rows locked1))) 0); lia.
    + destruct (Z.eqb_spec (Z.of_nat (length (full_rows locked1))) 0);
        [exact Hlevel|reflexivity].
  - destruct (Z.eqb_spec (Z.of_nat (length (full_rows locked1))) 0) as [Hz|Hnz].
    + rewrite Hz. cbn. repeat split; lia.
    + repeat split; reflexivity.
Qed.

(** X11: [lock_piece] keeps the state well formed. From a state in which
    every key is on the board, no row is full, the current piece is a table
    piece at a position [valid_space] accepts, the next piece is a fresh
    one, score and lines are not negative and level is lines // 10 + 1, it
    returns a state of which all that holds again, with the old next piece
    as the current one. *)
Theorem lock_piece_keeps_invariant (st : Tetris.t) (choice : PieceKey) :
  invariant st ->
  exists st',
    Tetris.lock_piece st choice = Ok st' /\
    invariant st' /\
    Tetris.current st' = Tetris.next_piece st.
Proof.
  intros Hinv.
  destruct (lock_piece_invariant_core st choice Hinv)
    as (st' & cleared & Hrun & Hinv' & _ & _ & _ & Hcur).
  exists st'. auto.
Qed.




(** X14: [reset] never raises, and the state it makes is well formed: an
    empty board, a fresh current piece and a fresh next piece, score 0,
    lines 0, level 1 and the game-over flag down. *)
Theorem reset_state (choice1 choice2 : PieceKey) :
  exists st,
    Tetris.reset choice1 choice2 = Ok st /\
    invariant st /\
    Tetris.locked st = ∅ /\
    Piece.init choice1 = Ok (Tetris.current st) /\
    Piece.init choice2 = Ok (Tetris.next_piece st) /\
    Tetris.score st = 0 /\ Tetris.lines st = 0 /\ Tetris.level st = 1 /\
    Tetris.game_over st = false.
Proof.
  destruct (make_grid_of ∅) as (grid & Hgrid & _).
  destruct (init_total choice1) as (p1 & Hp1).
  destruct (init_total choice2) as (p2 & Hp2).
  exists (Tetris.mk ∅ grid p1 p2 0 0 1 false).
  split.
  { unfold Tetris.reset, Tetris.get_new_piece.
    rewrite Hgrid, Hp1, Hp2. reflexivity. }
  split; [|cbn; repeat split; auto].
  unfold invariant. cbn.
  split; [|split; [|split; [|split; [|split; [|split]]]]]; try lia.
  - intros x y c Hc. rewrite lookup_empty in Hc. discriminate.
  - intros y Hy Hfull. destruct (Hfull 0) as (c & Hc); [unfold COLUMNS; lia|].
    rewrite lookup_empty in Hc. discriminate.
  - apply spawned_piece_ok. now exists choice1.
  - now exists choice2.
  - reflexivity.
Qed.

(** ** Moving the falling piece *)

Lemma invariant_set_current (st : Tetris.t) (p : Piece.t) :
  invariant st -> piece_ok p (Tetris.locked st) ->
  same_board st (Tetris.set_current st p) /\ invariant (Tetris.set_current st p).
Proof.
  intros (Hb & Hnone & _ & Hnext & Hscore & Hlines & Hlevel) Hp.
  split.
  - unfold same_board. cbn. repeat split; reflexivity.
  - unfold invariant. cbn.
    split; [exact Hb|]. split; [exact Hnone|]. split; [exact Hp|].
    split; [exact Hnext|]. split; [exact Hscore|]. split; [exact Hlines|].
    exact Hlevel.
Qed.

Lemma same_board_refl (st : Tetris.t) : same_board st st.
Proof. unfold same_board. repeat split; reflexivity. Qed.

(** X15: [_perform_pad_action] never raises on a well-formed state, whatever
    the action name; it changes nothing but the current piece (locked
    cells, grid, next piece, score, lines, level and flag are the same),
    and the state is well formed again: the piece is still a table piece at
    a position [valid_space] accepts. *)
Theorem pad_action_keeps_invariant (st : Tetris.t) (act : string) :
  invariant st ->
  exists st',
    Tetris._perform_pad_action st act = Ok st' /\
    same_board st st' /\ invariant st'.
Proof.
  intros Hinv.
  assert (Hcur : piece_ok (Tetris.current st) (Tetris.locked st)) by apply Hinv.
  destruct Hcur as (Hrots & Hr & Hsync & Hvalid).
  assert (Hstay : exists st', Ok st = Ok st' /\ same_board st st' /\ invariant st')
    by (exists st; split; [reflexivity|split; [apply same_board_refl|exact Hinv]]).
  assert (Hmove : forall x' y',
            valid_space (Piece.shape (Tetris.current st)) x' y' (Tetris.locked st) = true ->
            piece_ok (Piece.mk (Piece.type (Tetris.current st))
                               (Piece.rotations (Tetris.current st))
                               (Piece.rotation (Tetris.current st))
                               (Piece.shape (Tetris.current st)) x' y'
                               (Piece.color (Tetris.current st)))
                     (Tetris.locked st)).
  { intros x' y' Hv. unfold piece_ok, shape_in_sync, state_count. cbn. auto. }
  unfold Tetris._perform_pad_action.
  destruct (String.eqb act "left").
  { destruct (valid_space _ (Piece.x (Tetris.current st) - 1) _ _) eqn:Hv;
      [|exact Hstay].
    eexists. split; [reflexivity|].
    apply invariant_set_current; [exact Hinv|]. now apply Hmove. }
  destruct (String.eqb act "right").
  { destruct (valid_space _ (Piece.x (Tetris.current st) + 1) _ _) eqn:Hv;
      [|exact Hstay].
    eexists. split; [reflexivity|].
    apply invariant_set_current; [exact Hinv|]. now apply Hmove. }
  destruct (String.eqb act "down").
  { destruct (valid_space _ _ (Piece.y (Tetris.current st) + 1) _) eqn:Hv;
      [|exact Hstay].
    eexists. split; [reflexivity|].
    apply invariant_set_current; [exact Hinv|]. now apply Hmove. }
  destruct (String.eqb act "rotate"); [|exact Hstay].
  destruct (rotation_outcome_core (Tetris.current st) (Tetris.locked st) false Hsync)
    as (b & p' & Hrun & Ht & Hrs & Hy & Hc & Hsync' & Htrue & Hfalse).
  cbv zeta in Hrun. rewrite Hrun. cbn [bind snd].
  eexists. split; [reflexivity|].
  apply invariant_set_current; [exact Hinv|].
  destruct b.
  - destruct (Htrue eq_refl) as (Hrot & Hv & _).
    assert (Hn : state_count p' = state_count (Tetris.current st))
      by (unfold state_count; now rewrite Hrs).
    unfold piece_ok. rewrite Hrs, Ht, Hn, Hrot.
    repeat split; auto; apply Z.mod_pos_bound; lia.
  - rewrite (Hfalse eq_refl). unfold piece_ok. auto.
Qed.

(** X16: a move to the left that is accepted, from a position
    [valid_space] accepts, is undone by the move to the right, and the
    other way round: the state after the two actions is the state before
    them. *)
Theorem left_right_round_trip (st : Tetris.t) :
  let cur := Tetris.current st in
  valid_space (Piece.shape cur) (Piece.x cur) (Piece.y cur) (Tetris.locked st) = true ->
  (valid_space (Piece.shape cur) (Piece.x cur - 1) (Piece.y cur) (Tetris.locked st) = true ->
   exists st1,
     Tetris._perform_pad_action st "left" = Ok st1 /\
     Piece.x (Tetris.current st1) = Piece.x cur - 1 /\
     Tetris._perform_pad_action st1 "right" = Ok st) /\
  (valid_space (Piece.shape cur) (Piece.x cur + 1) (Piece.y cur) (Tetris.locked st) = true ->
   exists st1,
     Tetris._perform_pad_action st "right" = Ok st1 /\
     Piece.x (Tetris.current st1) = Piece.x cur + 1 /\
     Tetris._perform_pad_action st1 "left" = Ok st).
Proof.
  intros cur Hhere. subst cur. split; intros Hthere.
  - eexists. split; [|split].
    + unfold Tetris._perform_pad_action. cbn [String.eqb Ascii.eqb Bool.eqb].
      cbn -[valid_space]. rewrite Hthere. reflexivity.
    + reflexivity.
    + unfold Tetris._perform_pad_action. cbn -[valid_space].
      replace (Piece.x (Tetris.current st) - 1 + 1)
        with (Piece.x (Tetris.current st)) by lia.
      rewrite Hhere. destruct st as [? ? [] ? ? ? ? ?]. reflexivity.
  - eexists. split; [|split].
    + unfold Tetris._perform_pad_action. cbn -[valid_space].
      rewrite Hthere. reflexivity.
    + reflexivity.
    + unfold Tetris._perform_pad_action. cbn -[valid_space].
      replace (Piece.x (Tetris.current st) + 1 - 1)
        with (Piece.x (Tetris.current st)) by lia.
      rewrite Hhere. destruct st as [? ? [] ? ? ? ? ?]. reflexivity.
Qed.

(** ** [hard_drop] *)

Lemma set_y_set_y (p : Piece.t) (a b : Z) :
  Piece.set_y (Piece.set_y p a) b = Piece.set_y p b.
Proof. reflexivity. Qed.

Lemma set_y_same (p : Piece.t) : Piece.set_y p (Piece.y p) = p.
Proof. destruct p; reflexivity. Qed.

Lemma drop_loop_spec (fuel : nat) (cur cur' : Piece.t) (locked : Locked) :
  Tetris.drop_loop fuel cur locked = Some cur' ->
  cur' = Piece.set_y cur (Piece.y cur') /\
  Piece.y cur <= Piece.y cur' /\
  valid_space (Piece.shape cur) (Piece.x cur) (Piece.y cur' + 1) locked = false /\
  forall y, Piece.y cur < y <= Piece.y cur' ->
            valid_space (Piece.shape cur) (Piece.x cur) y locked = true.
Proof.
  revert cur. induction fuel as [|fuel IH]; intros cur; simpl; [discriminate|].
  destruct (valid_space (Piece.shape cur) (Piece.x cur) (Piece.y cur + 1) locked)
    eqn:Hv.
  - intros H. destruct (IH _ H) as (Heq & Hle & Hstop & Hall). cbn in *.
    split; [exact Heq|]. split; [lia|]. split; [exact Hstop|].
    intros y Hy. destruct (Z.eq_dec y (Piece.y cur + 1)) as [->|Hne];
      [exact Hv|apply Hall; lia].
  - intros [= <-]. split; [symmetry; apply set_y_same|].
    split; [lia|]. split; [exact Hv|]. intros y Hy. lia.
Qed.

Lemma drop_loop_returns (fuel : nat) (cur : Piece.t) (locked : Locked) (i j : nat) :
  occupied (Piece.shape cur) i j ->
  (Z.to_nat (ROWS - Piece.y cur - Z.of_nat j) < fuel)%nat ->
  exists cur', Tetris.drop_loop fuel cur locked = Some cur'.
Proof.
  intros Hocc. revert cur Hocc.
  induction fuel as [|fuel IH]; intros cur Hocc Hfuel; [lia|].
  simpl.
  destruct (valid_space (Piece.shape cur) (Piece.x cur) (Piece.y cur + 1) locked)
    eqn:Hv; [|eauto].
  apply IH; [exact Hocc|]. cbn.
  unfold valid_space in Hv. rewrite valid_cells_spec in Hv.
  destruct (Hv (Piece.x cur + Z.of_nat i) (Piece.y cur + 1 + Z.of_nat j))
    as (_ & Hrow & _); [apply in_shape_cells; eauto|].
  lia.
Qed.

Lemma drop_loop_more_fuel (fuel fuel' : nat) (cur cur' : Piece.t) (locked : Locked) :
  Tetris.drop_loop fuel cur locked = Some cur' -> (fuel <= fuel')%nat ->
  Tetris.drop_loop fuel' cur locked = Some cur'.
Proof.
  revert fuel' cur. induction fuel as [|fuel IH]; intros fuel' cur; simpl;
    [discriminate|].
  intros H Hle. destruct fuel' as [|fuel']; [lia|]. simpl.
  destruct (valid_space (Piece.shape cur) (Piece.x cur) (Piece.y cur + 1) locked);
    [apply IH; [exact H|lia]|exact H].
Qed.

Lemma no_cells_no_occupied (s : Shape) (offset_x offset_y : Z) :
  (forall i j, ~ occupied s i j) -> shape_cells s offset_x offset_y = [].
Proof.
  intros Hnone. destruct (shape_cells s offset_x offset_y) as [|[cx cy] l] eqn:Hl;
    [reflexivity|exfalso].
  assert (Hin : In (cx, cy) (shape_cells s offset_x offset_y))
    by (rewrite Hl; now left).
  apply in_shape_cells in Hin. destruct Hin as (i & j & Hocc & _).
  exact (Hnone i j Hocc).
Qed.

(** X17: the loop of [hard_drop] ends on every piece whose shape has an
    occupied cell: with enough fuel (more than ROWS minus the row of that
    cell) it returns, always the same piece, which is the piece it was
    given moved down to the first row from which one more step down is
    refused; every row passed on the way was accepted. *)
Theorem drop_loop_lands (cur : Piece.t) (locked : Locked) (i j : nat) :
  occupied (Piece.shape cur) i j ->
  exists cur',
    (forall fuel, (Z.to_nat (ROWS - Piece.y cur - Z.of_nat j) < fuel)%nat ->
                  Tetris.drop_loop fuel cur locked = Some cur') /\
    cur' = Piece.set_y cur (Piece.y cur') /\
    Piece.y cur <= Piece.y cur' /\
    valid_space (Piece.shape cur) (Piece.x cur) (Piece.y cur' + 1) locked = false /\
    forall y, Piece.y cur < y <= Piece.y cur' ->
              valid_space (Piece.shape cur) (Piece.x cur) y locked = true.
Proof.
  intros Hocc.
  destruct (drop_loop_returns (S (Z.to_nat (ROWS - Piece.y cur - Z.of_nat j)))
              cur locked i j Hocc) as (cur' & Hrun); [lia|].
  exists cur'. split; [|exact (drop_loop_spec _ _ _ _ Hrun)].
  intros fuel Hfuel. apply (drop_loop_more_fuel _ fuel _ _ _ Hrun). lia.
Qed.

(** X18: on a piece whose shape has no occupied cell the loop of
    [hard_drop] never ends: [valid_space] accepts every row, so whatever
    the fuel the loop has not returned, and neither has [hard_drop]. *)
Theorem drop_loop_never_ends
    (fuel : nat) (st : Tetris.t) (choice : PieceKey) :
  (forall i j, ~ occupied (Piece.shape (Tetris.current st)) i j) ->
  Tetris.drop_loop fuel (Tetris.current st) (Tetris.locked st) = None /\
  Tetris.hard_drop fuel st choice = None.
Proof.
  intros Hnone.
  assert (Hloop : forall cur, Piece.shape cur = Piece.shape (Tetris.current st) ->
            Tetris.drop_loop fuel cur (Tetris.locked st) = None).
  { induction fuel as [|fuel IH]; intros cur Hs; simpl; [reflexivity|].
    unfold valid_space. rewrite Hs, no_cells_no_occupied by exact Hnone.
    cbn. apply IH. exact Hs. }
  split; [now apply Hloop|].
  unfold Tetris.hard_drop. now rewrite Hloop.
Qed.

(** X19: on a well-formed state [hard_drop] returns as soon as the fuel
    exceeds ROWS minus the row of the piece, it does not raise, and the
    state it leaves is well formed again. *)
Theorem hard_drop_keeps_invariant
    (fuel : nat) (st : Tetris.t) (choice : PieceKey) :
  invariant st ->
  (Z.to_nat (ROWS - Piece.y (Tetris.current st)) < fuel)%nat ->
  exists st',
    Tetris.hard_drop fuel st choice = Some (Ok st') /\
    invariant st' /\
    Tetris.current st' = Tetris.next_piece st.
Proof.
  intros Hinv Hfuel.
  assert (Hcur : piece_ok (Tetris.current st) (Tetris.locked st)) by apply Hinv.
  destruct Hcur as (Hrots & Hr & Hsync & Hvalid).
  assert (Hocc : exists i j, occupied (Piece.shape (Tetris.current st)) i j).
  { pose proof (table_cells_four (Piece.type (Tetris.current st))
                  (Piece.shape (Tetris.current st)) 0 0) as Hfour.
    destruct (shape_cells (Piece.shape (Tetris.current st)) 0 0)
      as [|[cx cy] l] eqn:Hl.
    - rewrite <- Hrots in Hfour.
      specialize (Hfour (py_index_elem _ _ _ Hsync)). discriminate Hfour.
    - assert (Hin : In (cx, cy) (shape_cells (Piece.shape (Tetris.current st)) 0 0))
        by (rewrite Hl; now left).
      apply in_shape_cells in Hin. destruct Hin as (i & j & Hocc & _). eauto. }
  destruct Hocc as (i & j & Hocc).
  destruct (drop_loop_returns fuel (Tetris.current st) (Tetris.locked st) i j Hocc)
    as (cur' & Hrun); [lia|].
  destruct (drop_loop_spec _ _ _ _ Hrun) as (Heq & Hle & _ & Hall).
  assert (Hok : piece_ok cur' (Tetris.locked st)).
  { remember (Piece.y cur') as y' eqn:Hy'. rewrite Heq.
    unfold piece_ok, shape_in_sync, state_count in *. cbn.
    split; [exact Hrots|]. split; [exact Hr|]. split; [exact Hsync|].
    destruct (Z.eq_dec y' (Piece.y (Tetris.current st))) as [Hsame|Hne];
      [rewrite Hsame; exact Hvalid|apply Hall; lia]. }
  destruct (invariant_set_current st cur' Hinv Hok) as [_ Hinv'].
  destruct (lock_piece_invariant_core (Tetris.set_current st cur') choice Hinv')
    as (st' & cleared & Hlock & Hinv'' & _ & _ & _ & Hnext).
  exists st'. split; [|split; [exact Hinv''|exact Hnext]].
  unfold Tetris.hard_drop. now rewrite Hrun, Hlock.
Qed.

(** ** The on-screen pad *)

Lemma in_circle_box (px py cx cy r : Z) :
  0 <= r -> Tetris._point_in_circle px py cx cy r = true ->
  cx - r <= px <= cx + r /\ cy - r <= py <= cy + r.
Proof.
  intros Hr H. unfold Tetris._point_in_circle in H. apply Z.leb_le in H.
  rewrite !Z.pow_2_r in H.
  assert (Hsq : forall a b, a * a + b * b <= r * r -> - r <= a <= r).
  { intros a b Hab.
    pose proof (Z.square_nonneg b) as Hb.
    assert (Ha : a * a <= r * r) by lia.
    pose proof (Z.square_le_simpl_nonneg a r Hr Ha).
    assert (Ha' : - a * - a <= r * r) by (rewrite Z.mul_opp_opp; exact Ha).
    pose proof (Z.square_le_simpl_nonneg (- a) r Hr Ha'). lia. }
  pose proof (Hsq _ _ H) as Hx.
  rewrite Z.add_comm in H. pose proof (Hsq _ _ H) as Hy. lia.
Qed.

(** X20: [_pad_action_at] answers with one of the four action names, and
    only for points of the side panel: a point for which it returns a name
    has PLAY_WIDTH < mx < PLAY_WIDTH + SIDE_PANEL and 0 < my < PLAY_HEIGHT,
    so a click on the play field never reaches a pad button. *)
Theorem pad_action_in_panel (mx my : Z) (name : string) :
  Tetris._pad_action_at mx my = Some name ->
  In name ["rotate"; "left"; "down"; "right"]%string /\
  PLAY_WIDTH < mx < PLAY_WIDTH + SIDE_PANEL /\ 0 < my < PLAY_HEIGHT.
Proof.
  unfold Tetris._pad_action_at, Tetris.pad_positions. cbn [Tetris.first_button].
  change (PLAY_WIDTH + SIDE_PANEL / 2) with 400.
  change (PLAY_HEIGHT - 120 - PAD_RADIUS - PAD_GAP) with 440.
  change (PLAY_HEIGHT - 120) with 480.
  change (400 - PAD_RADIUS - PAD_GAP - PAD_RADIUS) with 332.
  change (400 + PAD_RADIUS + PAD_GAP + PAD_RADIUS) with 468.
  change PLAY_WIDTH with 300. change SIDE_PANEL with 200.
  change PLAY_HEIGHT with 600.
  destruct (Tetris._point_in_circle mx my 400 440 PAD_RADIUS) eqn:Hr;
    [apply in_circle_box in Hr; [|vm_compute; discriminate]|
  destruct (Tetris._point_in_circle mx my 332 480 PAD_RADIUS) eqn:Hl;
    [apply in_circle_box in Hl; [|vm_compute; discriminate]|
  destruct (Tetris._point_in_circle mx my 400 480 PAD_RADIUS) eqn:Hd;
    [apply in_circle_box in Hd; [|vm_compute; discriminate]|
  destruct (Tetris._point_in_circle mx my 468 480 PAD_RADIUS) eqn:Hg;
    [apply in_circle_box in Hg; [|vm_compute; discriminate]|discriminate]]]];
  change PAD_RADIUS with 28 in *;
  intros Heq; injection Heq as Heq; subst name;
  (split; [simpl; tauto|lia]).
Qed.

(** X21: which button answers. The left and right buttons are hit exactly
    by the points of their own circle; the circles of the rotate and down
    buttons overlap, and there the rotate button, which comes first, wins:
    rotate answers on all of its circle, down on its circle less the
    rotate circle. *)
Theorem pad_action_buttons (mx my : Z) :
  let hit cx cy := Tetris._point_in_circle mx my cx cy PAD_RADIUS in
  (Tetris._pad_action_at mx my = Some "rotate"%string <-> hit 400 440 = true) /\
  (Tetris._pad_action_at mx my = Some "left"%string <-> hit 332 480 = true) /\
  (Tetris._pad_action_at mx my = Some "down"%string <->
   hit 400 480 = true /\ hit 400 440 = false) /\
  (Tetris._pad_action_at mx my = Some "right"%string <-> hit 468 480 = true) /\
  (Tetris._pad_action_at 400 460 = Some "rotate"%string /\
   Tetris._point_in_circle 400 460 400 480 PAD_RADIUS = true).
Proof.
  intros hit. subst hit. cbv beta.
  unfold Tetris._pad_action_at, Tetris.pad_positions. cbn [Tetris.first_button].
  change (PLAY_WIDTH + SIDE_PANEL / 2) with 400.
  change (PLAY_HEIGHT - 120 - PAD_RADIUS - PAD_GAP) with 440.
  change (PLAY_HEIGHT - 120) with 480.
  change (400 - PAD_RADIUS - PAD_GAP - PAD_RADIUS) with 332.
  change (400 + PAD_RADIUS + PAD_GAP + PAD_RADIUS) with 468.
  destruct (Tetris._point_in_circle mx my 400 440 PAD_RADIUS) eqn:Hr;
  destruct (Tetris._point_in_circle mx my 332 480 PAD_RADIUS) eqn:Hl;
  destruct (Tetris._point_in_circle mx my 400 480 PAD_RADIUS) eqn:Hd;
  destruct (Tetris._point_in_circle mx my 468 480 PAD_RADIUS) eqn:Hg;
  try (apply in_circle_box in Hr; [|vm_compute; discriminate]);
  try (apply in_circle_box in Hl; [|vm_compute; discriminate]);
  try (apply in_circle_box in Hd; [|vm_compute; discriminate]);
  try (apply in_circle_box in Hg; [|vm_compute; discriminate]);
  unfold PAD_RADIUS in *;
  try lia;
  (repeat split; try (intros [= ]); try (intros [? ?]); try reflexivity;
   try discriminate; try congruence; try (vm_compute; reflexivity)).
Qed.

(** ** [valid_space] and the locked cells *)

(** X22: [valid_space] looks only at which cells are locked, not at their
    colours, and fewer locked cells never hurt: a placement accepted
    against one dictionary is accepted against any dictionary all of whose
    keys are keys of the first. *)
Theorem valid_space_fewer_cells
    (shape : Shape) (offset_x offset_y : Z) (locked locked' : Locked) :
  (forall k, locked !! k = None -> locked' !! k = None) ->
  valid_space shape offset_x offset_y locked = true ->
  valid_space shape offset_x offset_y locked' = true.
Proof.
  unfold valid_space. rewrite !valid_cells_spec. intros Hsub H cx cy Hin.
  destruct (H cx cy Hin) as (Hx & Hy & Hfree).
  split; [exact Hx|]. split; [exact Hy|]. intros Hpos. apply Hsub. now apply Hfree.
Qed.

(** ** Instances of the further properties *)

Lemma state_open_invariant : invariant state_open.
Proof.
  unfold invariant.
  split; [apply keys_in_boundsb_spec; vm_compute; reflexivity|].
  split; [unfold no_full_row; apply no_full_row_check; vm_compute; reflexivity|].
  split.
  { unfold piece_ok. split; [reflexivity|]. split; [vm_compute; split; congruence|].
    split; vm_compute; reflexivity. }
  split; [exists T_; vm_compute; reflexivity|].
  cbn. repeat split; try lia; reflexivity.
Qed.

Lemma state_one_row_invariant : invariant state_one_row.
Proof.
  unfold invariant.
  split; [apply keys_in_boundsb_spec; vm_compute; reflexivity|].
  split; [unfold no_full_row; apply no_full_row_check; vm_compute; reflexivity|].
  split.
  { unfold piece_ok. split; [reflexivity|]. split; [vm_compute; split; congruence|].
    split; vm_compute; reflexivity. }
  split; [exists T_; vm_compute; reflexivity|].
  cbn. repeat split; try lia; reflexivity.
Qed.

Lemma rotate_rectangular_witness :
  exists s',
    rotate ["010"; "111"; "000"]%string = Ok s' /\ rectangular s' 3 3 /\
    forall r c, (r < 3)%nat -> (c < 3)%nat ->
      cell_at s' r c = cell_at ["010"; "111"; "000"]%string (3 - 1 - c) r.
Proof.
  apply (rotate_rectangular ["010"; "111"; "000"]%string 3 3).
  - split; [reflexivity|]. repeat constructor.
  - lia.
Defined.

Lemma rotate_four_times_witness :
  exists s1 s2 s3,
    rotate ["0000"; "1111"; "0000"; "0000"]%string = Ok s1 /\
    rotate s1 = Ok s2 /\ rotate s2 = Ok s3 /\
    rotate s3 = Ok ["0000"; "1111"; "0000"; "0000"]%string.
Proof.
  apply (rotate_four_times ["0000"; "1111"; "0000"; "0000"]%string 4 4).
  - split; [reflexivity|]. repeat constructor.
  - lia.
  - lia.
Defined.

Lemma make_grid_board_only_witness :
  make_grid board_stray_key = make_grid board_one_cell.
Proof.
  apply (make_grid_board_only board_stray_key board_one_cell).
  intros x y [Hx _]. unfold board_stray_key.
  apply lookup_insert_ne. intros [= H _]. lia.
Defined.

Lemma rotation_outcome_witness :
  exists b p',
    Piece.rotate_ccw (upright_I 3 0) board_row1_gap = Ok (b, p') /\
    shape_in_sync p' /\ (b = false -> p' = upright_I 3 0).
Proof.
  destruct (rotation_outcome (upright_I 3 0) board_row1_gap true)
    as (b & p' & Hrun & _ & _ & _ & _ & Hsync & _ & Hfalse).
  - vm_compute. reflexivity.
  - exists b, p'. split; [exact Hrun|]. split; [exact Hsync|exact Hfalse].
Defined.

Lemma rotate_then_rotate_ccw_witness :
  Piece.rotate_ccw (free_T 1 ["010"; "011"; "010"]%string) ∅
  = Ok (true, free_T 0 ["010"; "111"; "000"]%string).
Proof.
  apply (rotate_then_rotate_ccw (free_T 0 ["010"; "111"; "000"]%string)
           (free_T 1 ["010"; "011"; "010"]%string) ∅).
  - unfold piece_ok. split; [reflexivity|].
    split; [vm_compute; split; congruence|]. split; vm_compute; reflexivity.
  - vm_compute. reflexivity.
  - reflexivity.
Defined.

Lemma lock_piece_keeps_invariant_witness :
  exists st',
    Tetris.lock_piece state_one_row I_ = Ok st' /\ invariant st' /\
    Tetris.current st' = spawned_T.
Proof.
  apply (lock_piece_keeps_invariant state_one_row I_).
  exact state_one_row_invariant.
Defined.



Lemma pad_action_keeps_invariant_witness :
  exists st',
    Tetris._perform_pad_action state_open "rotate" = Ok st' /\
    same_board state_open st' /\ invariant st'.
Proof.
  apply (pad_action_keeps_invariant state_open "rotate").
  exact state_open_invariant.
Defined.

Lemma left_right_round_trip_witness :
  exists st1,
    Tetris._perform_pad_action state_open "left" = Ok st1 /\
    Piece.x (Tetris.current st1) = 4 - 1 /\
    Tetris._perform_pad_action st1 "right" = Ok state_open.
Proof.
  apply (proj1 (left_right_round_trip state_open ltac:(vm_compute; reflexivity))).
  vm_compute. reflexivity.
Defined.

Lemma drop_loop_lands_witness :
  exists cur',
    (forall fuel, (Z.to_nat (ROWS - 5 - 0) < fuel)%nat ->
       Tetris.drop_loop fuel (free_T 0 ["010"; "111"; "000"]%string) ∅ = Some cur') /\
    Piece.y cur' = 18.
Proof.
  destruct (drop_loop_lands (free_T 0 ["010"; "111"; "000"]%string) ∅ 1 0)
    as (cur' & Hrun & _).
  - exists "010"%string. split; reflexivity.
  - exists cur'. split; [exact Hrun|].
    specialize (Hrun 20%nat ltac:(vm_compute; lia)).
    vm_compute in Hrun. injection Hrun as <-. reflexivity.
Defined.

Lemma drop_loop_never_ends_witness :
  Tetris.drop_loop 1000 blank_piece ∅ = None /\
  Tetris.hard_drop 1000
    (Tetris.mk ∅ empty_grid blank_piece spawned_T 0 0 1 false) I_ = None.
Proof.
  apply (drop_loop_never_ends 1000
           (Tetris.mk ∅ empty_grid blank_piece spawned_T 0 0 1 false) I_).
  intros i j Hocc.
  assert (Hin : In (0 + Z.of_nat i, 0 + Z.of_nat j)
                   (shape_cells (Piece.shape blank_piece) 0 0))
    by (apply in_shape_cells; eauto).
  exact Hin.
Defined.

Lemma hard_drop_keeps_invariant_witness :
  exists st',
    Tetris.hard_drop 30 state_open I_ = Some (Ok st') /\ invariant st' /\
    Tetris.current st' = spawned_T.
Proof.
  apply (hard_drop_keeps_invariant 30 state_open I_).
  - exact state_open_invariant.
  - vm_compute. lia.
Defined.

Lemma pad_action_in_panel_witness :
  In "down"%string ["rotate"; "left"; "down"; "right"]%string /\
  PLAY_WIDTH < 400 < PLAY_WIDTH + SIDE_PANEL /\ 0 < 490 < PLAY_HEIGHT.
Proof.
  apply (pad_action_in_panel 400 490 "down").
  vm_compute. reflexivity.
Defined.

Lemma valid_space_fewer_cells_witness :
  valid_space ["010"; "111"; "000"]%string 4 0 board_one_cell = true.
Proof.
  apply (valid_space_fewer_cells _ 4 0 board_stray_key board_one_cell).
  - intros k H. unfold board_stray_key in H. rewrite lookup_insert in H.
    destruct (decide ((-1, 5) = k)); [discriminate H|exact H].
  - vm_compute. reflexivity.
Defined.
